(** * Vanity address search: the job manager of [services/vanityService.js]

    A shallow embedding of the [VanityService] class and of the events its
    worker threads and timers deliver to it, followed by the properties of
    the subsystem's specification that the code decides.

    JavaScript numbers are IEEE 754 binary64 values and are modelled by
    Rocq's primitive floats, which implement the same format with the same
    rounding; integer quantities the service only compares or subtracts
    (attempt counts, millisecond clocks) are kept in [Z]. *)

From Stdlib Require Import ZArith String Ascii List Bool Lia.
From Stdlib Require Import Floats.PrimFloat Floats.SpecFloat Floats.FloatOps.
From Stdlib Require Import Numbers.Cyclic.Int63.Uint63 DecimalString.
From stdpp Require Import base option list gmap fin_maps.

Set Warnings "-inexact-float".

Local Open Scope Z_scope.

(** ** JavaScript numbers *)

Module Num.

(** An integer of the host, as the double it is in JavaScript (exact below
    2^53 in magnitude). *)
Definition of_Z (z : Z) : float :=
  if z <? 0 then PrimFloat.opp (PrimFloat.of_uint63 (Uint63.of_Z (- z)))
  else PrimFloat.of_uint63 (Uint63.of_Z z).

Definition of_nat (n : nat) : float := of_Z (Z.of_nat n).

(** [Math.pow(b, n)] for a natural exponent, as the repeated product; every
    partial product of [58] is exact up to the ninth power. *)
Fixpoint Math_pow (b : float) (n : nat) : float :=
  match n with
  | O => PrimFloat.one
  | S k => PrimFloat.mul b (Math_pow b k)
  end.

(** [Math.round]: the nearest integer, ties towards +infinity; NaN, the
    infinities, the zeros and integers are returned as they are, and a
    negative number that rounds to zero gives -0. *)
Definition Math_round (x : float) : float :=
  match Prim2SF x with
  | S754_finite s m e =>
      if 0 <=? e then x
      else
        let k := - e in
        let n := if s then Z.neg m else Z.pos m in
        let r := Z.shiftr (2 * n + 2 ^ k) (k + 1) in
        if (r =? 0) && s then PrimFloat.neg_zero else of_Z r
  | _ => x
  end.

(** The integer a double denotes, when it denotes one. *)
Definition to_Z (x : float) : option Z :=
  match Prim2SF x with
  | S754_zero _ => Some 0
  | S754_finite s m e =>
      if 0 <=? e then
        Some ((if s then Z.neg m else Z.pos m) * 2 ^ e)
      else if Z.pos m mod 2 ^ (- e) =? 0 then
        Some ((if s then Z.neg m else Z.pos m) / 2 ^ (- e))
      else None
  | _ => None
  end.

(** Number-to-string conversion inside a template literal, for the values
    whose conversion is the plain decimal numeral: integers below 10^21 in
    magnitude. Other values (exponent notation, fractions) are not
    rendered. *)
Definition toString (x : float) : option string :=
  if PrimFloat.is_nan x then Some "NaN"%string
  else if PrimFloat.eqb x PrimFloat.infinity then Some "Infinity"%string
  else if PrimFloat.eqb x PrimFloat.neg_infinity then Some "-Infinity"%string
  else
    match to_Z x with
    | Some z =>
        if Z.abs z <? 10 ^ 21
        then Some (NilZero.string_of_int (Z.to_int z))
        else None
    | None => None
    end.

End Num.

(** ** Pattern validator and difficulty estimator *)

(** The [type] argument: the three match types of the command handler, and
    any other string, which every [switch] sends to its [default] branch. *)
Inductive matchType := prefix | suffix | contains | otherType.

Inductive WarningLevel := easy | medium | hard | extreme.

Inductive timeUnit := Seconds | Minutes | Hours | Days.

(** The value of a template literal [`${Math.round(..)}s`]: the rounded
    number and the unit letter that follows it. *)
Record timeText := { amount : float; unit : timeUnit }.

Definition unitSuffix (u : timeUnit) : string :=
  match u with
  | Seconds => "s" | Minutes => "m" | Hours => "h" | Days => "d"
  end.

Definition timeText_string (t : timeText) : option string :=
  match Num.toString (amount t) with
  | Some s => Some (s ++ unitSuffix (unit t))%string
  | None => None
  end.

Record Difficulty := {
  difficulty : float;
  estimatedAttempts : float;
  estimatedTime : timeText;
  warningLevel : WarningLevel
}.

(** Constructor fields of the service. *)
Definition maxConcurrentJobs : nat := 3.
Definition maxPatternLength : nat := 6.
Definition maxGenerationTime : Z := 30 * 60 * 1000.

Definition getDifficultyWarning (estimatedSeconds : float) : WarningLevel :=
  if PrimFloat.ltb estimatedSeconds 60 then easy
  else if PrimFloat.ltb estimatedSeconds 300 then medium
  else if PrimFloat.ltb estimatedSeconds 1800 then hard
  else extreme.

Definition formatTime (seconds : float) : timeText :=
  if PrimFloat.ltb seconds 60 then
    {| amount := Num.Math_round seconds; unit := Seconds |}
  else if PrimFloat.ltb seconds 3600 then
    {| amount := Num.Math_round (PrimFloat.div seconds 60); unit := Minutes |}
  else if PrimFloat.ltb seconds 86400 then
    {| amount := Num.Math_round (PrimFloat.div seconds 3600); unit := Hours |}
  else
    {| amount := Num.Math_round (PrimFloat.div seconds 86400); unit := Days |}.

Definition base58Chars : float := 58%float.

Definition baseDifficulty (len : nat) (type : matchType) : float :=
  match type with
  | prefix | suffix => Num.Math_pow base58Chars len
  | contains => PrimFloat.div (Num.Math_pow base58Chars len) (Num.of_nat len)
  | otherType => Num.Math_pow base58Chars len
  end.

Definition calculateDifficulty (pattern : string) (type : matchType) : Difficulty :=
  let baseDifficulty := baseDifficulty (String.length pattern) type in
  let estimatedAttempts := Num.Math_round (PrimFloat.mul baseDifficulty 0.693%float) in
  let estimatedSeconds := PrimFloat.div estimatedAttempts 1000 in
  {| difficulty := baseDifficulty;
     estimatedAttempts := estimatedAttempts;
     estimatedTime := formatTime estimatedSeconds;
     warningLevel := getDifficultyWarning estimatedSeconds |}.

(** The character class of the [validBase58] regular expression. A
    character of a pattern stands for one code unit of the JavaScript
    string, so [String.length] is its [length]. *)
Definition base58Alphabet : string :=
  "123456789ABCDEFGHJKLMNPQRSTUVWXYZabcdefghijkmnopqrstuvwxyz".

Definition isBase58 (c : ascii) : bool :=
  existsb (Ascii.eqb c) (list_ascii_of_string base58Alphabet).

(** [/^[...]+$/.test(pattern)]: one character or more, each of the class. *)
Definition validBase58 (pattern : string) : bool :=
  match list_ascii_of_string pattern with
  | [] => false
  | cs => forallb isBase58 cs
  end.

(** The entries [validatePattern] pushes on its [errors] array, by the
    template that produces each. *)
Inductive validationError :=
  | PatternEmpty
  | PatternTooLong (max : nat)
  | InvalidCharacters
  | ExtremelyDifficult (estimatedTime : timeText).

(** What [validatePattern] returns; [validationDifficulty] is its
    [difficulty] field, absent from the result for the empty pattern. *)
Record Validation := {
  valid : bool;
  errors : list validationError;
  validationDifficulty : option Difficulty
}.

Definition validatePattern (pattern : string) (type : matchType) : Validation :=
  if Nat.eqb (String.length pattern) 0 then
    {| valid := false; errors := [PatternEmpty]; validationDifficulty := None |}
  else
    let errors1 :=
      if Nat.ltb maxPatternLength (String.length pattern)
      then [PatternTooLong maxPatternLength] else [] in
    let errors2 :=
      if validBase58 pattern then errors1 else errors1 ++ [InvalidCharacters] in
    let difficulty := calculateDifficulty pattern type in
    let errors3 :=
      match warningLevel difficulty with
      | extreme => errors2 ++ [ExtremelyDifficult (estimatedTime difficulty)]
      | _ => errors2
      end in
    {| valid := Nat.eqb (List.length errors3) 0;
       errors := errors3;
       validationDifficulty := Some difficulty |}.

(** ** Job manager *)

(** The [result] object of a worker's [success] message. *)
Record workerResult := {
  address : string;
  publicKey : string;
  privateKey : list Z;
  mnemonic : string;
  attempts : Z
}.

(** Messages a worker posts, by their [type] field; a message of any other
    type falls through the [switch] of [handleWorkerMessage]. The service
    never reads the [jobId] a message carries. *)
Inductive workerMessage :=
  | MsgProgress (attempts : Z)
  | MsgSuccess (result : workerResult)
  | MsgError (error : string)
  | MsgOther.

(** The job object of [startGeneration]; [jobDifficulty] is its [difficulty]
    field, and [worker] and [timeout] are the handles of its thread and of
    its timer. *)
Record jobInfo := {
  jobId : string;
  userId : Z;
  pattern : string;
  type : matchType;
  worker : nat;
  startTime : Z;
  lastProgress : Z;
  jobDifficulty : Difficulty;
  timeout : nat
}.

(** The texts handed to [telegramBot.sendMessage], by the template that
    builds each, with the values the template interpolates. *)
Inductive text :=
  | ProgressText (pattern : string) (type : matchType) (attempts : Z)
      (attemptsPerSecond : float) (elapsed : timeText)
  | SuccessText (address : string) (pattern : string) (type : matchType)
      (attempts : Z) (time : timeText)
  | ErrorText (message : string)
  | CancelText (reason : string).

(** A worker thread of the runtime: [Running] from [new Worker] on,
    [Terminated] once [terminate()] was called on it, [Exited] once its
    ['exit'] event was emitted. [owner] is the [userId] its three event
    handlers close over. *)
Inductive workerStatus := Running | Terminated | Exited.

Record workerThread := {
  owner : Z;
  workerData : string * matchType * string;
  status : workerStatus
}.

(** The service's [activeJobs] map with what it acts on: the worker threads
    it created (a handle is the index of its thread), the timers that are
    armed (with the [userId] their callback closes over) and the messages
    sent through the bot so far, oldest first. The bot is the one
    collaborator the service calls. *)
Record world := {
  activeJobs : gmap Z jobInfo;
  workers : list workerThread;
  timers : gmap nat Z;
  nextTimer : nat;
  sent : list (Z * text)
}.

Definition initial : world :=
  {| activeJobs := ∅; workers := []; timers := ∅; nextTimer := 0; sent := [] |}.

Definition setActiveJobs (m : gmap Z jobInfo) (w : world) : world :=
  {| activeJobs := m; workers := workers w; timers := timers w;
     nextTimer := nextTimer w; sent := sent w |}.

Definition setWorkers (l : list workerThread) (w : world) : world :=
  {| activeJobs := activeJobs w; workers := l; timers := timers w;
     nextTimer := nextTimer w; sent := sent w |}.

Definition setTimers (t : gmap nat Z) (w : world) : world :=
  {| activeJobs := activeJobs w; workers := workers w; timers := t;
     nextTimer := nextTimer w; sent := sent w |}.

Definition sendMessage (userId : Z) (t : text) (w : world) : world :=
  {| activeJobs := activeJobs w; workers := workers w; timers := timers w;
     nextTimer := nextTimer w; sent := sent w ++ [(userId, t)] |}.

(** [worker.terminate()]: stops a running thread, and does nothing to one
    that was stopped before. *)
Definition terminate (h : nat) (w : world) : world :=
  match workers w !! h with
  | Some th =>
      match status th with
      | Running =>
          setWorkers (<[h := {| owner := owner th; workerData := workerData th;
                                status := Terminated |}]> (workers w)) w
      | _ => w
      end
  | None => w
  end.

Definition clearTimeout (t : nat) (w : world) : world :=
  setTimers (delete t (timers w)) w.

(** [setTimeout(callback, this.maxGenerationTime)], the callback being the
    cancellation of [userId]'s generation. *)
Definition setTimeout (userId : Z) (w : world) : world * nat :=
  ({| activeJobs := activeJobs w; workers := workers w;
      timers := <[nextTimer w := userId]> (timers w);
      nextTimer := S (nextTimer w); sent := sent w |}, nextTimer w).

(** [new Worker(.., { workerData })] with the three handlers of
    [startGeneration] installed on it. *)
Definition newWorker (userId : Z) (data : string * matchType * string)
    (w : world) : world * nat :=
  (setWorkers (workers w ++ [{| owner := userId; workerData := data;
                                status := Running |}]) w,
   List.length (workers w)).

Definition cleanupJob (userId : Z) (w : world) : world :=
  match activeJobs w !! userId with
  | Some jobInfo =>
      let w1 := clearTimeout (timeout jobInfo) w in
      let w2 := terminate (worker jobInfo) w1 in
      setActiveJobs (delete userId (activeJobs w2)) w2
  | None => w
  end.

(** The three errors [startGeneration] throws. *)
Inductive startError :=
  | AlreadyActive
  | ConcurrencyLimitReached
  | InvalidPattern (errors : list validationError).

(** [getStartMessage(pattern, type, difficulty)], by its interpolated values. *)
Record startText := {
  startPattern : string;
  startType : matchType;
  startDifficulty : Difficulty
}.

(** What [startGeneration] returns: [jobId], [difficulty], [startMessage]. *)
Record startResult := {
  resultJobId : string;
  resultDifficulty : Difficulty;
  startMessage : startText
}.

Inductive thrown (A : Type) :=
  | Returned (a : A)
  | Threw (e : startError).
Arguments Returned {A} a.
Arguments Threw {A} e.

Definition getStartMessage (pattern : string) (type : matchType)
    (difficulty : Difficulty) : startText :=
  {| startPattern := pattern; startType := type; startDifficulty := difficulty |}.

(** [randomHex] is the value of [crypto.randomBytes(8).toString('hex')] and
    [now] that of [Date.now()] at the call. Only the result for the empty
    pattern lacks a difficulty, and it is not valid, so the last branch is
    the [throw] of the validation errors. *)
Definition startGeneration (userId : Z) (pattern : string) (type : matchType)
    (randomHex : string) (now : Z) (w : world) : world * thrown startResult :=
  match activeJobs w !! userId with
  | Some _ => (w, Threw AlreadyActive)
  | None =>
      if (maxConcurrentJobs <=? size (activeJobs w))%nat
      then (w, Threw ConcurrencyLimitReached)
      else
        let validation := validatePattern pattern type in
        match valid validation, validationDifficulty validation with
        | true, Some difficulty =>
            let jobId := randomHex in
            let '(w1, worker) := newWorker userId (pattern, type, jobId) w in
            let '(w2, timeout) := setTimeout userId w1 in
            let jobInfo :=
              {| jobId := jobId; userId := userId; pattern := pattern;
                 type := type; worker := worker; startTime := now;
                 lastProgress := 0; jobDifficulty := difficulty;
                 timeout := timeout |} in
            (setActiveJobs (<[userId := jobInfo]> (activeJobs w2)) w2,
             Returned {| resultJobId := jobId; resultDifficulty := difficulty;
                         startMessage := getStartMessage pattern type difficulty |})
        | _, _ => (w, Threw (InvalidPattern (errors validation)))
        end
  end.

Definition setLastProgress (attempts : Z) (j : jobInfo) : jobInfo :=
  {| jobId := jobId j; userId := userId j; pattern := pattern j;
     type := type j; worker := worker j; startTime := startTime j;
     lastProgress := attempts; jobDifficulty := jobDifficulty j;
     timeout := timeout j |}.

(** Milliseconds to seconds: [elapsed / 1000]. *)
Definition seconds (elapsed : Z) : float :=
  PrimFloat.div (Num.of_Z elapsed) 1000.

Definition handleProgress (userId : Z) (attempts : Z) (now : Z) (w : world) : world :=
  match activeJobs w !! userId with
  | None => w
  | Some jobInfo =>
      let elapsed := now - startTime jobInfo in
      let attemptsPerSecond :=
        Num.Math_round (PrimFloat.div (Num.of_Z attempts) (seconds elapsed)) in
      if 10000 <=? attempts - lastProgress jobInfo then
        let progressText :=
          ProgressText (pattern jobInfo) (type jobInfo) attempts
            attemptsPerSecond (formatTime (seconds elapsed)) in
        let w1 := sendMessage userId progressText w in
        setActiveJobs (<[userId := setLastProgress attempts jobInfo]> (activeJobs w1)) w1
      else w
  end.

(** The record [handleSuccess] returns "for saving to database": [address],
    [publicKey], [privateKey], [mnemonic], [isVanity], [vanityPattern],
    [vanityType], [attempts], [generationTime]. *)
Record walletRecord := {
  walletAddress : string;
  walletPublicKey : string;
  walletPrivateKey : list Z;
  walletMnemonic : string;
  isVanity : bool;
  vanityPattern : string;
  vanityType : matchType;
  walletAttempts : Z;
  generationTime : Z
}.

Definition handleSuccess (userId : Z) (result : workerResult) (now : Z)
    (w : world) : world * option walletRecord :=
  match activeJobs w !! userId with
  | None => (w, None)
  | Some jobInfo =>
      let elapsed := now - startTime jobInfo in
      let successText :=
        SuccessText (address result) (pattern jobInfo) (type jobInfo)
          (attempts result) (formatTime (seconds elapsed)) in
      let w1 := sendMessage userId successText w in
      let w2 := cleanupJob userId w1 in
      (w2, Some {| walletAddress := address result;
                   walletPublicKey := publicKey result;
                   walletPrivateKey := privateKey result;
                   walletMnemonic := mnemonic result;
                   isVanity := true;
                   vanityPattern := pattern jobInfo;
                   vanityType := type jobInfo;
                   walletAttempts := attempts result;
                   generationTime := elapsed |})
  end.

Definition handleWorkerError (userId : Z) (message : string) (w : world) : world :=
  let w1 := sendMessage userId (ErrorText message) w in
  cleanupJob userId w1.

(** The call of [handleSuccess] is a statement of the [switch]: what it
    returns is dropped here. *)
Definition handleWorkerMessage (userId : Z) (message : workerMessage) (now : Z)
    (w : world) : world :=
  match activeJobs w !! userId with
  | None => w
  | Some _ =>
      match message with
      | MsgProgress attempts => handleProgress userId attempts now w
      | MsgSuccess result => fst (handleSuccess userId result now w)
      | MsgError error => handleWorkerError userId error w
      | MsgOther => w
      end
  end.

Definition defaultReason : string := "Cancelled by user".

Definition cancelGeneration (userId : Z) (reason : string) (w : world) : world * bool :=
  match activeJobs w !! userId with
  | None => (w, false)
  | Some jobInfo =>
      let w1 := terminate (worker jobInfo) w in
      let w2 := sendMessage userId (CancelText reason) w1 in
      (cleanupJob userId w2, true)
  end.

(** What [getStatus] returns for an active job: [pattern], [type],
    [elapsed], [difficulty]. *)
Record statusView := {
  statusPattern : string;
  statusType : matchType;
  statusElapsed : timeText;
  statusDifficulty : Difficulty
}.

Definition getStatus (userId : Z) (now : Z) (w : world) : option statusView :=
  match activeJobs w !! userId with
  | None => None
  | Some jobInfo =>
      let elapsed := now - startTime jobInfo in
      Some {| statusPattern := pattern jobInfo;
              statusType := type jobInfo;
              statusElapsed := formatTime (seconds elapsed);
              statusDifficulty := jobInfo.(jobDifficulty) |}
  end.

(** ** Events *)

Definition timeoutReason : string := "Generation timed out after 30 minutes".

Definition exitMessage (code : Z) : string :=
  "Worker stopped with exit code " ++ NilZero.string_of_int (Z.to_int code).

(** What reaches the service: the three calls of the command handlers, and
    the callbacks [startGeneration] registered, which the runtime invokes
    for a worker's ['message'], ['error'] and ['exit'] events and for a timer
    that elapses. An event whose handler reads the clock carries the
    reading; an exit event carries the exit code, which is 1 for a thread
    that [terminate()] stopped. *)
Inductive event :=
  | CallStart (userId : Z) (pattern : string) (type : matchType)
      (randomHex : string) (now : Z)
  | CallCancel (userId : Z) (reason : option string)
  | CallStatus (userId : Z) (now : Z)
  | OnMessage (worker : nat) (message : workerMessage) (now : Z)
  | OnError (worker : nat) (message : string)
  | OnExit (worker : nat) (code : Z)
  | OnTimeout (timer : nat).

(** What the caller of an event gets back; the runtime's callbacks return
    to no one. *)
Inductive response :=
  | StartResponse (r : thrown startResult)
  | CancelResponse (cancelled : bool)
  | StatusResponse (view : option statusView)
  | NoResponse.

Definition markExited (h : nat) (w : world) : world :=
  match workers w !! h with
  | Some th =>
      setWorkers (<[h := {| owner := owner th; workerData := workerData th;
                            status := Exited |}]> (workers w)) w
  | None => w
  end.

(** The thread behind handle [h], while it can still emit events. *)
Definition emitting (h : nat) (w : world) : option workerThread :=
  match workers w !! h with
  | Some th => match status th with Exited => None | _ => Some th end
  | None => None
  end.

(** One event. A thread emits events until its exit event, which comes
    once; a timer fires if it is still armed, and is spent by firing. *)
Definition step (e : event) (w : world) : world * response :=
  match e with
  | CallStart userId pattern type randomHex now =>
      let '(w', r) := startGeneration userId pattern type randomHex now w in
      (w', StartResponse r)
  | CallCancel userId reason =>
      let '(w', b) := cancelGeneration userId (default defaultReason reason) w in
      (w', CancelResponse b)
  | CallStatus userId now => (w, StatusResponse (getStatus userId now w))
  | OnMessage h message now =>
      match emitting h w with
      | Some th => (handleWorkerMessage (owner th) message now w, NoResponse)
      | None => (w, NoResponse)
      end
  | OnError h message =>
      match emitting h w with
      | Some th => (handleWorkerError (owner th) message w, NoResponse)
      | None => (w, NoResponse)
      end
  | OnExit h code =>
      match emitting h w with
      | Some th =>
          let w1 := markExited h w in
          if code =? 0 then (w1, NoResponse)
          else (handleWorkerError (owner th) (exitMessage code) w1, NoResponse)
      | None => (w, NoResponse)
      end
  | OnTimeout t =>
      match timers w !! t with
      | Some userId =>
          let w1 := setTimers (delete t (timers w)) w in
          (fst (cancelGeneration userId timeoutReason w1), NoResponse)
      | None => (w, NoResponse)
      end
  end.

(** A run of events from a state, with the responses in order. *)
Fixpoint run (es : list event) (w : world) : world * list response :=
  match es with
  | [] => (w, [])
  | e :: es' =>
      let '(w1, r) := step e w in
      let '(w2, rs) := run es' w1 in
      (w2, r :: rs)
  end.

Definition after (es : list event) : world := fst (run es initial).

(** ** The specification's vocabulary *)

(** The alphabet in the specification's words: the digits 1 to 9, the
    capitals without I and O, the small letters without l. *)
Definition specBase58 (c : ascii) : bool :=
  let n := N_of_ascii c in
  ((49 <=? n) && (n <=? 57)
   || (65 <=? n) && (n <=? 90) && negb (n =? 73) && negb (n =? 79)
   || (97 <=? n) && (n <=? 122) && negb (n =? 108))%N.

Definition foreignChar (pattern : string) : Prop :=
  ∃ c, In c (list_ascii_of_string pattern) ∧ specBase58 c = false.

Definition validLength (pattern : string) : Prop :=
  (1 <= String.length pattern <= maxPatternLength)%nat.

(** A worker of requester [r] that the runtime still executes. *)
Definition liveWorkerOf (r : Z) (h : nat) (w : world) : Prop :=
  ∃ th, workers w !! h = Some th ∧ owner th = r ∧ status th = Running.

(** What every state the service reaches satisfies: a job is filed under its
    own requester; a thread that still runs is the worker of the job filed
    under its owner; an armed timer is the timeout of the job filed under
    the requester it would cancel. *)
Record consistent (w : world) : Prop := {
  job_key : ∀ u j, activeJobs w !! u = Some j → userId j = u;
  running_job : ∀ h th,
    workers w !! h = Some th → status th = Running →
    ∃ j, activeJobs w !! owner th = Some j ∧ worker j = h;
  timer_job : ∀ t u,
    timers w !! t = Some u →
    ∃ j, activeJobs w !! u = Some j ∧ timeout j = t
}.

(** No requester has a job in [w'] who had none in [w]. *)
Definition keeps_keys (w w' : world) : Prop :=
  ∀ k, is_Some (activeJobs w' !! k) → is_Some (activeJobs w !! k).

(** The terminal states of the specification's job state machine. *)
Inductive terminalState := Succeeded | Cancelled | TimedOut | Failed | Exhausted.

(** The terminal state a text announces, by the heading of its template:
    "Vanity Wallet Generated Successfully!", "Vanity Generation Failed" or
    "Vanity Generation Cancelled"; a progress text announces none. *)
Definition announced (t : text) : option terminalState :=
  match t with
  | SuccessText _ _ _ _ _ => Some Succeeded
  | ErrorText _ => Some Failed
  | CancelText _ => Some Cancelled
  | ProgressText _ _ _ _ _ => None
  end.

(** The texts of a log that announce a terminal state to requester [r]. *)
Definition terminalTexts (r : Z) (log : list (Z * text)) : list text :=
  omap (λ m, if decide (m.1 = r) then
               match announced m.2 with Some _ => Some m.2 | None => None end
             else None) log.

(** ** Further invariants of the job manager *)

(** The requester an event concerns: the one named by a call, the owner of
    the thread that emits a worker event, the one an armed timer would
    cancel. *)
Definition subject (e : event) (w : world) : option Z :=
  match e with
  | CallStart userId _ _ _ _ => Some userId
  | CallCancel userId _ => Some userId
  | CallStatus userId _ => Some userId
  | OnMessage h _ _ => owner <$> emitting h w
  | OnError h _ => owner <$> emitting h w
  | OnExit h _ => owner <$> emitting h w
  | OnTimeout t => timers w !! t
  end.

(** More of what every state the service reaches satisfies: the timer of a
    job in the table is armed for its requester; timer handles are handed
    out in order; the worker of a job in the table is a thread of its
    requester that was given the job's pattern, type and id and that the
    service has not terminated; there are as many armed timers as jobs, and
    no more jobs than the ceiling. *)
Record sound (w : world) : Prop := {
  job_timer : ∀ u j, activeJobs w !! u = Some j → timers w !! timeout j = Some u;
  timer_fresh : ∀ t u, timers w !! t = Some u → (t < nextTimer w)%nat;
  job_worker : ∀ u j,
    activeJobs w !! u = Some j →
    ∃ th, workers w !! worker j = Some th ∧ owner th = u
          ∧ workerData th = (pattern j, type j, jobId j)
          ∧ status th ≠ Terminated;
  timer_count : size (timers w) = size (activeJobs w);
  job_count : (size (activeJobs w) <= maxConcurrentJobs)%nat
}.

(** [w'] differs from [w] in the job of requester [u] at most, and the
    texts sent in between all went to [u]. *)
Definition touches (u : Z) (w w' : world) : Prop :=
  (∀ v, v ≠ u → activeJobs w' !! v = activeJobs w !! v)
  ∧ ∃ new, sent w' = sent w ++ new ∧ Forall (λ m, m.1 = u) new.

(** The attempt counts of the progress texts sent to requester [r]. *)
Definition progressAttempts (r : Z) (log : list (Z * text)) : list Z :=
  omap (λ m, if decide (m.1 = r) then
               match m.2 with
               | ProgressText _ _ attempts _ _ => Some attempts
               | _ => None
               end
             else None) log.

(** Each count is at least 10000 above the one before it, the first above
    [last]. *)
Fixpoint spaced (last : Z) (l : list Z) : Prop :=
  match l with
  | [] => True
  | a :: l' => 10000 <= a - last ∧ spaced a l'
  end.

(** The warning level of a pattern by its length and match type: what
    [calculateDifficulty] assigns, which reads nothing else of the pattern. *)
Definition levelOf (len : nat) (type : matchType) : WarningLevel :=
  getDifficultyWarning
    (PrimFloat.div
       (Num.Math_round (PrimFloat.mul (baseDifficulty len type) 0.693%float))
       1000).

(** ** The search worker ([vanityWorker.js]) *)

Module Worker.

Definition PROGRESS_INTERVAL : Z := 1000.
Definition MAX_ATTEMPTS : Z := 100000000.

(** [toUpperCase] on the characters of ASCII, which the addresses and the
    patterns that pass validation are made of: a small letter becomes its
    capital, every other character stays. *)
Definition upper (c : ascii) : ascii :=
  let n := N_of_ascii c in
  if ((97 <=? n) && (n <=? 122))%N then ascii_of_N (n - 32) else c.

Fixpoint toUpperCase (s : string) : string :=
  match s with
  | EmptyString => EmptyString
  | String c s' => String (upper c) (toUpperCase s')
  end.

Definition startsWith (s p : string) : bool := String.prefix p s.

Definition endsWith (s p : string) : bool :=
  let n := String.length s in
  let m := String.length p in
  (m <=? n)%nat && String.eqb (String.substring (n - m) m s) p.

Fixpoint includes (s p : string) : bool :=
  String.prefix p s
  || match s with
     | EmptyString => false
     | String _ s' => includes s' p
     end.

(** The test of an address against the pattern, by the [switch] on the
    type (its [default] is the prefix test). *)
Definition matches (pattern : string) (type : matchType) (address : string) : bool :=
  let patternUpper := toUpperCase pattern in
  match type with
  | prefix => startsWith (toUpperCase address) patternUpper
  | suffix => endsWith (toUpperCase address) patternUpper
  | contains => includes (toUpperCase address) patternUpper
  | otherType => startsWith (toUpperCase address) patternUpper
  end.

(** What one turn of the loop draws: a mnemonic with the keypair derived
    from it (the address is the public key in base58), or the exception one
    of the library calls throws. *)
Record wallet := {
  walletMnemonicPhrase : string;
  walletKeyAddress : string;
  walletSecretKey : list Z
}.

Inductive drawn :=
  | Drawn (k : wallet)
  | Thrown (message : string).

(** The two errors the worker posts: the ceiling was reached, or an
    exception was caught. *)
Inductive workerError :=
  | MaxAttemptsReached
  | Caught (message : string).

(** What the worker posts to its parent; each message carries the [jobId]
    of the worker's data as well. *)
Inductive posted :=
  | PostProgress (attempts : Z)
  | PostSuccess (result : workerResult)
  | PostError (e : workerError).

(** The two counters of [generateVanityWallet]. *)
Record counters := {
  tried : Z;
  lastProgressReport : Z
}.

(** One turn of the [while] loop: what it posts, and the counters for the
    next turn unless the function ends here. *)
Definition turn (pattern : string) (type : matchType) (d : drawn)
    (c : counters) : list posted * option counters :=
  let attempts := tried c + 1 in
  match d with
  | Thrown message => ([PostError (Caught message)], None)
  | Drawn k =>
      let address := walletKeyAddress k in
      let isMatch := matches pattern type address in
      let report := PROGRESS_INTERVAL <=? attempts - lastProgressReport c in
      let progress := if report then [PostProgress attempts] else [] in
      let last := if report then attempts else lastProgressReport c in
      if isMatch then
        (progress
         ++ [PostSuccess {| address := address;
                            publicKey := address;
                            privateKey := walletSecretKey k;
                            mnemonic := walletMnemonicPhrase k;
                            attempts := attempts |}],
         None)
      else (progress, Some {| tried := attempts; lastProgressReport := last |})
  end.

(** The loop over the draws of a run, under a ceiling on the attempts: what
    is posted, and the counters if the function has not ended when the
    draws given are used up. *)
Fixpoint loop (ceiling : Z) (pattern : string) (type : matchType)
    (draws : list drawn) (c : counters) : list posted * option counters :=
  if tried c <? ceiling then
    match draws with
    | [] => ([], Some c)
    | d :: draws' =>
        match turn pattern type d c with
        | (posts, None) => (posts, None)
        | (posts, Some c') =>
            let '(posts', r) := loop ceiling pattern type draws' c' in
            (posts ++ posts', r)
        end
    end
  else ([PostError MaxAttemptsReached], None).

Definition generateVanityWallet (pattern : string) (type : matchType)
    (draws : list drawn) : list posted * option counters :=
  loop MAX_ATTEMPTS pattern type draws {| tried := 0; lastProgressReport := 0 |}.

(** The message the parent receives for a post; [describe] renders the
    error text, which for the ceiling holds the number in the locale's
    digit grouping. *)
Definition delivered (describe : workerError → string) (p : posted) : workerMessage :=
  match p with
  | PostProgress attempts => MsgProgress attempts
  | PostSuccess result => MsgSuccess result
  | PostError e => MsgError (describe e)
  end.

Definition isTerminal (p : posted) : bool :=
  match p with
  | PostProgress _ => false
  | _ => true
  end.

(** A draw that is a wallet whose address fails the test. *)
Definition misses (pattern : string) (type : matchType) (d : drawn) : Prop :=
  match d with
  | Drawn k => matches pattern type (walletKeyAddress k) = false
  | Thrown _ => False
  end.

(** The progress reports for attempts 1000, 2000, ..., 1000 * n. *)
Definition reports (n : nat) : list posted :=
  map (λ k, PostProgress (1000 * Z.of_nat k)) (seq 1 n).

End Worker.

(** ** The rate limiter of the bot service *)

From Stdlib Require DecimalZ.

(** A check of every integer from [lo] up to, not including, [lo + 2^depth],
    by halving. *)
Fixpoint allBelow (depth : nat) (lo : Z) (P : Z → bool) : bool :=
  match depth with
  | O => P lo
  | S d => allBelow d lo P && allBelow d (lo + 2 ^ Z.of_nat d) P
  end.

Module Limiter.

(** [Math.ceil]: the least integer not below the number; NaN, the
    infinities, the zeros and integers are returned as they are, and a
    negative number above -1 gives -0. *)
Definition Math_ceil (x : float) : float :=
  match Prim2SF x with
  | S754_finite s m e =>
      if 0 <=? e then x
      else
        let n := if s then Z.neg m else Z.pos m in
        let r := - Z.shiftr (- n) (- e) in
        if (r =? 0) && s then PrimFloat.neg_zero else Num.of_Z r
  | _ => x
  end.

(** The value of [limits[operation] || 5]: a number, or the function or
    object that the [limits] object inherits under the name. *)
Inductive limitValue :=
  | Limit (n : Z)
  | Inherited (name : string).

(** The names of the properties every object inherits from
    [Object.prototype]: functions, and under [__proto__] the prototype
    itself. *)
Definition inheritedNames : list string :=
  ["constructor"; "hasOwnProperty"; "isPrototypeOf"; "propertyIsEnumerable";
   "toLocaleString"; "toString"; "valueOf"; "__proto__";
   "__defineGetter__"; "__defineSetter__"; "__lookupGetter__";
   "__lookupSetter__"]%string.

(** [limits[operation] || 5]: the entry of the table; for another name, what
    the table inherits under it, which is truthy; 5 where the lookup gives
    [undefined]. *)
Definition getLimitForOperation (operation : string) : limitValue :=
  if String.eqb operation "wallet_create" then Limit 1
  else if String.eqb operation "backup_request" then Limit 3
  else if String.eqb operation "send_transaction" then Limit 10
  else if String.eqb operation "balance_check" then Limit 30
  else if String.eqb operation "import_wallet" then Limit 2
  else if String.eqb operation "login_request" then Limit 10
  else if String.eqb operation "token_check" then Limit 20
  else if existsb (String.eqb operation) inheritedNames then Inherited operation
  else Limit 5.

(** A number that is an integer or NaN. *)
Inductive number :=
  | Int (z : Z)
  | NaN.

(** [limit - n] for an integer [n]: a function or an object converts to
    NaN. *)
Definition limitMinus (limit : limitValue) (n : Z) : number :=
  match limit with
  | Limit l => Int (l - n)
  | Inherited _ => NaN
  end.

(** [count >= limit]: false when the limit converts to NaN. *)
Definition atLeast (count : Z) (limit : limitValue) : bool :=
  match limit with
  | Limit l => l <=? count
  | Inherited _ => false
  end.

(** An entry of the [rateLimiters] map. *)
Record limiter := { count : Z; resetTime : Z }.

(** What [checkRateLimit] returns; [waitTime] is present in a refusal. *)
Record verdict := {
  allowed : bool;
  remaining : number;
  waitTime : option float
}.

(** The key [`${userId}:${operation}`], the user id being an integer that
    JavaScript prints with all its digits, as the ids of Telegram are. *)
Definition key (userId : Z) (operation : string) : string :=
  (NilZero.string_of_int (Z.to_int userId) ++ ":" ++ operation)%string.

(** [now] is the value of [Date.now()] at the call. *)
Definition checkRateLimit (userId : Z) (operation : string) (now : Z)
    (rateLimiters : gmap string limiter) : gmap string limiter * verdict :=
  let key := key userId operation in
  match rateLimiters !! key with
  | None =>
      (<[key := {| count := 1; resetTime := now + 60000 |}]> rateLimiters,
       {| allowed := true;
          remaining := limitMinus (getLimitForOperation operation) 1;
          waitTime := None |})
  | Some limiter =>
      if resetTime limiter <? now then
        (<[key := {| count := 1; resetTime := now + 60000 |}]> rateLimiters,
         {| allowed := true;
            remaining := limitMinus (getLimitForOperation operation) 1;
            waitTime := None |})
      else
        let limit := getLimitForOperation operation in
        if atLeast (count limiter) limit then
          (rateLimiters,
           {| allowed := false; remaining := Int 0;
              waitTime := Some (Math_ceil (seconds (resetTime limiter - now))) |})
        else
          (<[key := {| count := count limiter + 1;
                       resetTime := resetTime limiter |}]> rateLimiters,
           {| allowed := true; remaining := limitMinus limit (count limiter + 1);
              waitTime := None |})
  end.

(** Calls of one user for one operation at the given times, in order. *)
Fixpoint checkAll (userId : Z) (operation : string) (times : list Z)
    (rateLimiters : gmap string limiter) : gmap string limiter * list verdict :=
  match times with
  | [] => (rateLimiters, [])
  | now :: rest =>
      let '(r1, v) := checkRateLimit userId operation now rateLimiters in
      let '(r2, vs) := checkAll userId operation rest r1 in
      (r2, v :: vs)
  end.

(** No window is open for the key at [now]: the key has no entry, or its
    entry's reset time has passed. *)
Definition windowClosed (rateLimiters : gmap string limiter) (k : string)
    (now : Z) : Prop :=
  match rateLimiters !! k with
  | None => True
  | Some l => resetTime l < now
  end.

(** The wait told for [k] whole seconds left in the window is [k]. *)
Definition tellsSeconds (k : Z) : bool :=
  match Num.to_Z (Math_ceil (seconds (1000 * k))) with
  | Some z => z =? k
  | None => false
  end.

(** The verdicts of a window that had [k] calls left: [k] permissions
    counting the remainder down, then refusals. *)
Fixpoint countdown (calls : nat) (k : nat) : list (bool * number) :=
  match calls with
  | O => []
  | S calls' =>
      match k with
      | O => (false, Int 0) :: countdown calls' O
      | S k' => (true, Int (Z.of_nat k')) :: countdown calls' k'
      end
  end.

(** The verdicts of the calls made in one window, the one that opens it
    included: a countdown from the limit, or, under a limit that is no
    number, permissions without end. *)
Definition windowVerdicts (limit : limitValue) (calls : nat)
    : list (bool * number) :=
  match limit with
  | Limit l => countdown calls (Z.to_nat l)
  | Inherited _ => repeat (true, NaN) calls
  end.

(** Calls of any users for any operations, in order: who, what and when. *)
Fixpoint checkMany (calls : list (Z * string * Z))
    (rateLimiters : gmap string limiter) : gmap string limiter :=
  match calls with
  | [] => rateLimiters
  | (userId, operation, now) :: rest =>
      checkMany rest (fst (checkRateLimit userId operation now rateLimiters))
  end.

(** The text has no colon. *)
Definition colonFree (s : string) : Prop :=
  ¬ In ":"%char (list_ascii_of_string s).

End Limiter.

(** ** The list of all jobs *)

From stdpp Require sorting.

(** An entry of what [getAllActiveJobs] returns: [userId], [pattern],
    [type], [elapsed] in milliseconds, and the warning level as
    [difficulty]. *)
Record jobSummary := {
  summaryUserId : Z;
  summaryPattern : string;
  summaryType : matchType;
  summaryElapsed : Z;
  summaryDifficulty : WarningLevel
}.

Definition summarize (now : Z) (entry : Z * jobInfo) : jobSummary :=
  {| summaryUserId := entry.1;
     summaryPattern := pattern entry.2;
     summaryType := type entry.2;
     summaryElapsed := now - startTime entry.2;
     summaryDifficulty := warningLevel (jobDifficulty entry.2) |}.

Definition createdBefore (a b : Z * jobInfo) : Prop :=
  (worker a.2 <= worker b.2)%nat.

#[global] Instance createdBefore_dec (a b : Z * jobInfo) :
  Decision (createdBefore a b) := decide (worker a.2 <= worker b.2)%nat.

(** The loop over [this.activeJobs] visits the entries in the order they
    were set. An entry is set once, when its job is created, and worker
    handles grow with every creation, so this is the order of the worker
    handles. *)
Definition getAllActiveJobs (now : Z) (w : world) : list jobSummary :=
  summarize now
    <$> sorting.merge_sort createdBefore (map_to_list (activeJobs w)).

(** * Properties *)

(** ** The validator *)

Lemma isBase58_spec c : isBase58 c = specBase58 c.
Proof.
  destruct c as [b0 b1 b2 b3 b4 b5 b6 b7].
  destruct b0, b1, b2, b3, b4, b5, b6, b7; vm_compute; reflexivity.
Qed.

Lemma base58Alphabet_size : String.length base58Alphabet = 58%nat.
Proof. reflexivity. Qed.

Lemma forallb_false_inv {A} (f : A → bool) (l : list A) :
  forallb f l = false ↔ ∃ c, In c l ∧ f c = false.
Proof.
  induction l as [|b l IH]; simpl.
  - split; [discriminate | intros (c & [] & _)].
  - rewrite andb_false_iff, IH. split.
    + intros [Hb | (c & Hc & Hf)]; [exists b | exists c]; auto.
    + intros (c & [-> | Hc] & Hf); [left | right; exists c]; auto.
Qed.

Lemma validBase58_false pattern :
  validBase58 pattern = false ↔ pattern = ""%string ∨ foreignChar pattern.
Proof.
  unfold validBase58, foreignChar.
  destruct pattern as [|a s].
  - simpl. split; [auto | reflexivity].
  - change (list_ascii_of_string (String a s)) with (a :: list_ascii_of_string s).
    rewrite forallb_false_inv. split.
    + intros (c & Hc & Hf). right. exists c. rewrite <- isBase58_spec. auto.
    + intros [H | (c & Hc & Hf)]; [discriminate |].
      exists c. rewrite isBase58_spec. auto.
Qed.

Lemma calculateDifficulty_length pattern type :
  difficulty (calculateDifficulty pattern type)
  = baseDifficulty (String.length pattern) type.
Proof. reflexivity. Qed.

Lemma valid_errors pattern type :
  valid (validatePattern pattern type) = false
  ↔ errors (validatePattern pattern type) ≠ [].
Proof.
  unfold validatePattern.
  set (d := calculateDifficulty pattern type).
  destruct (Nat.eqb (String.length pattern) 0); cbn [valid errors];
    [split; congruence|].
  match goal with |- Nat.eqb (List.length ?l) 0 = false ↔ _ => destruct l end;
    simpl; split; congruence.
Qed.

(** C6. A pattern that is empty, longer than six characters or holds a
    character outside the base58 alphabet is not valid, whatever the match
    type, and [startGeneration] throws the validator's errors for any pattern
    that is not valid; a pattern that is not valid is of one of these three
    kinds or has an extreme difficulty, the one other entry the validator
    pushes on its errors. *)
Theorem validate_rejects (pattern : string) (type : matchType) :
  (valid (validatePattern pattern type) = false
   ↔ pattern = ""%string
     ∨ (maxPatternLength < String.length pattern)%nat
     ∨ foreignChar pattern
     ∨ warningLevel (calculateDifficulty pattern type) = extreme)
  ∧ (valid (validatePattern pattern type) = false →
     errors (validatePattern pattern type) ≠ []
     ∧ ∀ userId randomHex now w,
         activeJobs w !! userId = None →
         (size (activeJobs w) < maxConcurrentJobs)%nat →
         startGeneration userId pattern type randomHex now w
         = (w, Threw (InvalidPattern (errors (validatePattern pattern type))))).
Proof.
  split.
  - unfold validatePattern.
    set (d := calculateDifficulty pattern type).
    destruct (Nat.eqb (String.length pattern) 0) eqn:E0; cbn [valid].
    { apply Nat.eqb_eq in E0. destruct pattern; [tauto | discriminate]. }
    assert (Hne : pattern ≠ ""%string) by (intros ->; discriminate).
    destruct (Nat.ltb maxPatternLength (String.length pattern)) eqn:EL.
    { apply Nat.ltb_lt in EL.
      split; [tauto | intros _].
      destruct (validBase58 pattern), (warningLevel d); reflexivity. }
    apply Nat.ltb_ge in EL.
    destruct (validBase58 pattern) eqn:EV.
    + assert (Hf : ¬ foreignChar pattern).
      { intros Hf. assert (validBase58 pattern = false) by (apply validBase58_false; auto).
        congruence. }
      destruct (warningLevel d); cbn;
        (split; [try discriminate; tauto
                | intros [? | [? | [? | ?]]]; first [reflexivity | congruence | lia | tauto]]).
    + apply validBase58_false in EV.
      split; [tauto | intros _].
      destruct (warningLevel d); reflexivity.
  - intros Hv. split; [by apply valid_errors|].
    intros userId randomHex now w Hu Hsz.
    unfold startGeneration. rewrite Hu.
    destruct (maxConcurrentJobs <=? size (activeJobs w))%nat eqn:E.
    { apply Nat.leb_le in E. lia. }
    rewrite Hv. reflexivity.
Qed.

(** The pattern ["A0"] holds the digit 0. *)
Lemma validate_rejects_witness :
  valid (validatePattern "A0" suffix) = false
  ∧ ∀ userId randomHex now,
      startGeneration userId "A0" suffix randomHex now initial
      = (initial, Threw (InvalidPattern [InvalidCharacters])).
Proof.
  split; [reflexivity|].
  intros userId randomHex now.
  apply (proj2 (proj2 (validate_rejects "A0" suffix)
    ltac:(reflexivity)) userId randomHex now initial).
  - reflexivity.
  - vm_compute. lia.
Defined.

Lemma validBase58_true pattern :
  pattern ≠ ""%string → ¬ foreignChar pattern → validBase58 pattern = true.
Proof.
  intros Hne Hf. destruct (validBase58 pattern) eqn:E; [reflexivity|].
  apply validBase58_false in E. tauto.
Qed.

Lemma validLength_nonempty pattern : validLength pattern → pattern ≠ ""%string.
Proof. intros [H _] ->. simpl in H. lia. Qed.

(** C2, as the code has it. A pattern of valid length and alphabet whose
    estimate is extreme is not valid: the one entry of its errors is the
    extreme-difficulty text with the estimated time, the result still carries
    the difficulty, and [startGeneration] throws and leaves every job as it
    was. *)
Theorem extreme_is_rejected (pattern : string) (type : matchType) :
  validLength pattern →
  ¬ foreignChar pattern →
  warningLevel (calculateDifficulty pattern type) = extreme →
  validatePattern pattern type
  = {| valid := false;
       errors := [ExtremelyDifficult
                    (estimatedTime (calculateDifficulty pattern type))];
       validationDifficulty := Some (calculateDifficulty pattern type) |}
  ∧ ∀ userId randomHex now w,
      ∃ e, startGeneration userId pattern type randomHex now w = (w, Threw e).
Proof.
  intros HL Hf Hx.
  assert (HV : validBase58 pattern = true)
    by (apply validBase58_true; auto using validLength_nonempty).
  assert (E : validatePattern pattern type
    = {| valid := false;
         errors := [ExtremelyDifficult
                      (estimatedTime (calculateDifficulty pattern type))];
         validationDifficulty := Some (calculateDifficulty pattern type) |}).
  { unfold validatePattern. set (d := calculateDifficulty pattern type) in *.
    destruct HL as [H1 H6].
    destruct (Nat.eqb (String.length pattern) 0) eqn:E0.
    { apply Nat.eqb_eq in E0. lia. }
    destruct (Nat.ltb maxPatternLength (String.length pattern)) eqn:EL.
    { apply Nat.ltb_lt in EL. lia. }
    rewrite HV, Hx. reflexivity. }
  split; [exact E|].
  intros userId randomHex now w. unfold startGeneration.
  destruct (activeJobs w !! userId); [eauto|].
  destruct (maxConcurrentJobs <=? size (activeJobs w))%nat; [eauto|].
  rewrite E. cbn [valid]. eauto.
Qed.

Lemma ABCD_in_alphabet : ¬ foreignChar "ABCD".
Proof.
  intros (c & Hc & Hf). simpl in Hc.
  destruct Hc as [<- | [<- | [<- | [<- | []]]]]; discriminate.
Qed.

(** The four-letter prefix [ABCD]: 58^4 * 0.693 attempts, some two hours. *)
Lemma extreme_is_rejected_witness :
  valid (validatePattern "ABCD" prefix) = false
  ∧ ∃ e, startGeneration 7 "ABCD" prefix "00aa" 0 initial = (initial, Threw e).
Proof.
  assert (HL : validLength "ABCD") by (unfold validLength, maxPatternLength; simpl; lia).
  assert (Hx : warningLevel (calculateDifficulty "ABCD" prefix) = extreme)
    by (vm_compute; reflexivity).
  destruct (extreme_is_rejected "ABCD" prefix HL ABCD_in_alphabet Hx) as [E S].
  split; [rewrite E; reflexivity | apply S].
Defined.

(** C2, as the specification states it, fails at the four-letter prefix
    [ABCD]: of valid length and alphabet, extreme, and not valid. *)
Lemma extreme_not_a_warning :
  validLength "ABCD" ∧ ¬ foreignChar "ABCD"
  ∧ warningLevel (calculateDifficulty "ABCD" prefix) = extreme
  ∧ valid (validatePattern "ABCD" prefix) = false
  ∧ startGeneration 7 "ABCD" prefix "00aa" 0 initial
    = (initial,
       Threw (InvalidPattern
                [ExtremelyDifficult {| amount := 2; unit := Hours |}])).
Proof.
  split; [unfold validLength, maxPatternLength; simpl; lia|].
  split; [exact ABCD_in_alphabet|].
  repeat split; vm_compute; reflexivity.
Qed.

(** C7, as the code computes it. For ["ABC"] as a prefix the base difficulty
    is 58^3 = 195112, the estimated attempts are round(195112 * 0.693) =
    135213, that is 135.213 seconds at a thousand attempts a second, the
    estimated time reads "2m" and the warning level is medium. *)
Theorem difficulty_ABC :
  let d := calculateDifficulty "ABC" prefix in
  difficulty d = 195112%float
  ∧ Num.to_Z (difficulty d) = Some (58 ^ 3)
  ∧ estimatedAttempts d = Num.Math_round (195112 * 0.693)%float
  ∧ estimatedAttempts d = 135213%float
  ∧ (estimatedAttempts d / 1000)%float = 135.213%float
  ∧ timeText_string (estimatedTime d) = Some "2m"%string
  ∧ warningLevel d = medium.
Proof. repeat split; vm_compute; reflexivity. Qed.

(** C7, as the specification states it, fails: the estimated attempts for
    ["ABC"] are 54 short of 135267, and the estimated seconds are below
    135.265, so they do not round to 135.27. *)
Lemma difficulty_ABC_not_135267 :
  let d := calculateDifficulty "ABC" prefix in
  estimatedAttempts d ≠ 135267%float
  ∧ (135267 - estimatedAttempts d)%float = 54%float
  ∧ PrimFloat.ltb (estimatedAttempts d / 1000) 135.265 = true.
Proof.
  split; [|split; vm_compute; reflexivity].
  intros H. apply (f_equal Num.to_Z) in H. vm_compute in H. discriminate.
Qed.

(** C8. For a fixed match type the base difficulty grows strictly with the
    length of the pattern, over the patterns of a length the validator
    admits; and for every pattern of such a length, the six-character ones
    included, the difficulty of [contains] is at most that of [prefix] and
    of [suffix]. *)
Theorem difficulty_monotone (p q : string) (type : matchType) :
  validLength p →
  (validLength q → (String.length p < String.length q)%nat →
   PrimFloat.ltb (difficulty (calculateDifficulty p type))
                 (difficulty (calculateDifficulty q type)) = true)
  ∧ PrimFloat.leb (difficulty (calculateDifficulty p contains))
                  (difficulty (calculateDifficulty p prefix)) = true
  ∧ PrimFloat.leb (difficulty (calculateDifficulty p contains))
                  (difficulty (calculateDifficulty p suffix)) = true.
Proof.
  intros [Hp1 Hp6].
  rewrite !calculateDifficulty_length.
  unfold maxPatternLength in *.
  generalize dependent (String.length p). intros n Hn1 Hn6.
  assert (En : (n = 1 ∨ n = 2 ∨ n = 3 ∨ n = 4 ∨ n = 5 ∨ n = 6)%nat) by lia.
  clear Hn1 Hn6.
  split; [|destruct En as [-> | [-> | [-> | [-> | [-> | ->]]]]];
           split; vm_compute; reflexivity].
  intros [Hq1 Hq6]. unfold maxPatternLength in *.
  generalize dependent (String.length q). intros m Hm1 Hm6 Hlt.
  assert (Em : (m = 1 ∨ m = 2 ∨ m = 3 ∨ m = 4 ∨ m = 5 ∨ m = 6)%nat) by lia.
  clear Hm1 Hm6.
  destruct En as [-> | [-> | [-> | [-> | [-> | ->]]]]];
    destruct Em as [-> | [-> | [-> | [-> | [-> | ->]]]]]; try lia;
    destruct type; vm_compute; reflexivity.
Qed.

(** Two letters against three, as [contains]; and a pattern of six letters
    under the three match types. *)
Lemma difficulty_monotone_witness :
  PrimFloat.ltb (difficulty (calculateDifficulty "AB" contains))
                (difficulty (calculateDifficulty "ABC" contains)) = true
  ∧ PrimFloat.leb (difficulty (calculateDifficulty "ABCDEF" contains))
                  (difficulty (calculateDifficulty "ABCDEF" prefix)) = true
  ∧ PrimFloat.leb (difficulty (calculateDifficulty "ABCDEF" contains))
                  (difficulty (calculateDifficulty "ABCDEF" suffix)) = true.
Proof.
  split.
  - apply (difficulty_monotone "AB" "ABC" contains);
      unfold validLength, maxPatternLength; simpl; lia.
  - apply (difficulty_monotone "ABCDEF" "ABCDEF" contains).
    unfold validLength, maxPatternLength; simpl; lia.
Defined.

(** ** The job table *)

Lemma consistent_initial : consistent initial.
Proof.
  split; cbn; intros *.
  - by rewrite lookup_empty.
  - by rewrite lookup_nil.
  - by rewrite lookup_empty.
Qed.

Lemma sendMessage_consistent u t w :
  consistent w → consistent (sendMessage u t w).
Proof. intros [K R T]. split; assumption. Qed.

(** [terminate] by the cases of its handle: no such thread, or a thread in
    one of its three states. *)
Ltac terminate_cases h w :=
  unfold terminate; cbn;
  destruct (workers w !! h) as [?th|]; [destruct (status th)|].

Lemma terminate_activeJobs h w : activeJobs (terminate h w) = activeJobs w.
Proof. terminate_cases h w; reflexivity. Qed.

Lemma terminate_timers h w : timers (terminate h w) = timers w.
Proof. terminate_cases h w; reflexivity. Qed.

Lemma terminate_sent h w : sent (terminate h w) = sent w.
Proof. terminate_cases h w; reflexivity. Qed.

(** A thread that runs after [terminate h] ran before it and is not [h]. *)
Lemma terminate_running h w h' th :
  workers (terminate h w) !! h' = Some th → status th = Running →
  workers w !! h' = Some th ∧ h' ≠ h.
Proof.
  unfold terminate. destruct (workers w !! h) as [th0|] eqn:E.
  - destruct (status th0) eqn:S0; cbn; intros H HR.
    + destruct (decide (h' = h)) as [->|Hne].
      * rewrite list_lookup_insert_eq in H by (eapply lookup_lt_Some; eauto).
        inversion H; subst th. discriminate.
      * rewrite list_lookup_insert_ne in H by congruence. auto.
    + split; [assumption | intros ->]. congruence.
    + split; [assumption | intros ->]. congruence.
  - intros H _. split; [assumption | intros ->]. congruence.
Qed.

Lemma terminate_consistent h w : consistent w → consistent (terminate h w).
Proof.
  intros [K R T]. split.
  - rewrite terminate_activeJobs. exact K.
  - intros h' th H HR. rewrite terminate_activeJobs.
    destruct (terminate_running _ _ _ _ H HR) as [H' _]. eauto.
  - rewrite terminate_activeJobs, terminate_timers. exact T.
Qed.

Lemma cleanupJob_activeJobs u w :
  activeJobs (cleanupJob u w) = delete u (activeJobs w).
Proof.
  unfold cleanupJob. destruct (activeJobs w !! u) as [j|] eqn:E; cbn.
  - by rewrite terminate_activeJobs.
  - by rewrite delete_id.
Qed.

Lemma cleanupJob_sent u w : sent (cleanupJob u w) = sent w.
Proof.
  unfold cleanupJob. destruct (activeJobs w !! u) as [j|]; cbn; [|reflexivity].
  by rewrite terminate_sent.
Qed.

Lemma cleanupJob_consistent u w : consistent w → consistent (cleanupJob u w).
Proof.
  intros [K R T]. unfold cleanupJob.
  destruct (activeJobs w !! u) as [j|] eqn:E; [|by split].
  split; cbn; rewrite ?terminate_activeJobs, ?terminate_timers; cbn.
  - intros u' j' H. apply lookup_delete_Some in H as [_ H]. eauto.
  - intros h th H HR.
    apply terminate_running in H as [H Hne]; [|assumption]. cbn in H.
    destruct (R _ _ H HR) as (j' & Hj' & Hw).
    exists j'. split; [|assumption].
    rewrite lookup_delete_ne; [assumption|].
    intros Hu. rewrite <- Hu in Hj'. congruence.
  - intros t u' H. apply lookup_delete_Some in H as [Hne H].
    destruct (T _ _ H) as (j' & Hj' & Ht).
    exists j'. split; [|assumption].
    rewrite lookup_delete_ne; [assumption|].
    intros Hu. rewrite <- Hu in Hj'. congruence.
Qed.

Create HintDb jobs.
#[local] Hint Resolve consistent_initial sendMessage_consistent
  terminate_consistent cleanupJob_consistent : jobs.

Lemma startGeneration_consistent u pattern type randomHex now w :
  consistent w →
  consistent (fst (startGeneration u pattern type randomHex now w)).
Proof.
  intros C. unfold startGeneration.
  destruct (activeJobs w !! u) as [j|] eqn:E; [exact C|].
  destruct (maxConcurrentJobs <=? size (activeJobs w))%nat; [exact C|].
  destruct (valid (validatePattern pattern type)); [|exact C].
  destruct (validationDifficulty (validatePattern pattern type)) as [d|];
    [|exact C].
  destruct C as [K R T]. split; cbn.
  - intros u' j' H. apply lookup_insert_Some in H as [[<- <-] | [_ H]]; eauto.
  - intros h th H HR. apply lookup_app_Some in H as [H | [Hlen H]].
    + destruct (R _ _ H HR) as (j' & Hj' & Hw). exists j'. split; [|assumption].
      rewrite lookup_insert_ne; [assumption | congruence].
    + destruct (h - length (workers w))%nat as [|n] eqn:En; [|done].
      cbn in H. inversion H; subst th; cbn.
      rewrite lookup_insert_eq. eexists; split; [reflexivity|]. cbn. lia.
  - intros t u' H. apply lookup_insert_Some in H as [[<- <-] | [Hne H]].
    + rewrite lookup_insert_eq. eexists; split; reflexivity.
    + destruct (T _ _ H) as (j' & Hj' & Ht). exists j'. split; [|assumption].
      rewrite lookup_insert_ne; [assumption | congruence].
Qed.

Lemma handleProgress_consistent u attempts now w :
  consistent w → consistent (handleProgress u attempts now w).
Proof.
  intros C. unfold handleProgress.
  destruct (activeJobs w !! u) as [j|] eqn:E; [|exact C].
  destruct (10000 <=? attempts - lastProgress j); [|exact C].
  destruct C as [K R T]. split; cbn.
  - intros u' j' H. apply lookup_insert_Some in H as [[<- <-] | [_ H]]; cbn; eauto.
  - intros h th H HR. destruct (R _ _ H HR) as (j' & Hj' & Hw).
    destruct (decide (u = owner th)) as [->|Hne].
    + rewrite lookup_insert_eq. eexists; split; [reflexivity|]. cbn. congruence.
    + rewrite lookup_insert_ne by assumption. eauto.
  - intros t u' H. destruct (T _ _ H) as (j' & Hj' & Ht).
    destruct (decide (u = u')) as [->|Hne].
    + rewrite lookup_insert_eq. eexists; split; [reflexivity|]. cbn. congruence.
    + rewrite lookup_insert_ne by assumption. eauto.
Qed.

Lemma handleWorkerError_consistent u message w :
  consistent w → consistent (handleWorkerError u message w).
Proof.
  intros C. unfold handleWorkerError. auto with jobs.
Qed.

Lemma handleSuccess_consistent u result now w :
  consistent w → consistent (fst (handleSuccess u result now w)).
Proof.
  intros C. unfold handleSuccess.
  destruct (activeJobs w !! u) as [j|]; cbn; auto with jobs.
Qed.

#[local] Hint Resolve handleProgress_consistent handleSuccess_consistent
  handleWorkerError_consistent : jobs.

Lemma handleWorkerMessage_consistent u message now w :
  consistent w → consistent (handleWorkerMessage u message now w).
Proof.
  intros C. unfold handleWorkerMessage.
  destruct (activeJobs w !! u) as [j|]; [|exact C].
  destruct message; auto with jobs.
Qed.

Lemma cancelGeneration_consistent u reason w :
  consistent w → consistent (fst (cancelGeneration u reason w)).
Proof.
  intros C. unfold cancelGeneration.
  destruct (activeJobs w !! u) as [j|]; cbn; auto with jobs.
Qed.

Lemma markExited_consistent h w : consistent w → consistent (markExited h w).
Proof.
  intros [K R T]. unfold markExited.
  destruct (workers w !! h) as [th0|] eqn:E; [|by split].
  split; cbn; [assumption | | assumption].
  intros h' th H HR. destruct (decide (h' = h)) as [->|Hne].
  - rewrite list_lookup_insert_eq in H by (eapply lookup_lt_Some; eauto).
    inversion H; subst th. discriminate.
  - rewrite list_lookup_insert_ne in H by congruence. eauto.
Qed.

Lemma clearTimeout_consistent t w : consistent w → consistent (clearTimeout t w).
Proof.
  intros [K R T]. split; cbn; [assumption | assumption |].
  intros t' u H. apply lookup_delete_Some in H as [_ H]. eauto.
Qed.

#[local] Hint Resolve handleWorkerMessage_consistent markExited_consistent
  clearTimeout_consistent cancelGeneration_consistent : jobs.

Lemma step_consistent e w : consistent w → consistent (fst (step e w)).
Proof.
  intros C. destruct e as [u p ty hex now | u reason | u now | h m now
                          | h m | h code | t]; cbn.
  - pose proof (startGeneration_consistent u p ty hex now w C) as H.
    destruct (startGeneration u p ty hex now w). exact H.
  - pose proof (cancelGeneration_consistent u (default defaultReason reason) w C) as H.
    destruct (cancelGeneration u (default defaultReason reason) w). exact H.
  - exact C.
  - destruct (emitting h w); cbn; auto with jobs.
  - destruct (emitting h w); cbn; auto with jobs.
  - destruct (emitting h w); [|exact C].
    destruct (code =? 0); cbn; auto with jobs.
  - destruct (timers w !! t) as [u|]; [|exact C]. cbn.
    apply cancelGeneration_consistent. by apply (clearTimeout_consistent t).
Qed.

Lemma run_consistent es w : consistent w → consistent (fst (run es w)).
Proof.
  revert w. induction es as [|e es IH]; intros w C; cbn; [exact C|].
  pose proof (step_consistent e w C) as H.
  destruct (step e w) as [w1 r]. specialize (IH w1 H).
  destruct (run es w1). exact IH.
Qed.

Lemma after_consistent es : consistent (after es).
Proof. apply run_consistent, consistent_initial. Qed.

(** C1. In every state reached by any run of calls and callbacks, at most
    one job of the table belongs to a requester and at most one worker thread
    of that requester is still running; and a start for a requester who has a
    job in the table throws [AlreadyActive] and leaves the state as it was. *)
Theorem one_job_per_requester (es : list event) (r : Z) :
  let w := after es in
  (∀ k1 k2 j1 j2,
     activeJobs w !! k1 = Some j1 → activeJobs w !! k2 = Some j2 →
     userId j1 = r → userId j2 = r → k1 = k2 ∧ j1 = j2)
  ∧ (∀ h1 h2, liveWorkerOf r h1 w → liveWorkerOf r h2 w → h1 = h2)
  ∧ (∀ pattern type randomHex now,
       is_Some (activeJobs w !! r) →
       step (CallStart r pattern type randomHex now) w
       = (w, StartResponse (Threw AlreadyActive))).
Proof.
  intros w. destruct (after_consistent es) as [K R _]. fold w in K, R.
  split; [|split].
  - intros k1 k2 j1 j2 H1 H2 E1 E2.
    pose proof (K _ _ H1). pose proof (K _ _ H2).
    assert (k1 = k2) by congruence. subst k2. split; congruence.
  - intros h1 h2 (t1 & L1 & O1 & S1) (t2 & L2 & O2 & S2).
    destruct (R _ _ L1 S1) as (j1 & J1 & <-).
    destruct (R _ _ L2 S2) as (j2 & J2 & <-).
    congruence.
  - intros pattern type randomHex now [j Hj]. cbn.
    unfold startGeneration. rewrite Hj. reflexivity.
Qed.

(** ** Admission *)

Lemma keeps_keys_refl w : keeps_keys w w.
Proof. intros k. auto. Qed.

Lemma cleanupJob_keys u w w0 :
  activeJobs w = activeJobs w0 → keeps_keys w0 (cleanupJob u w).
Proof.
  intros E k. rewrite cleanupJob_activeJobs, E.
  intros [j H]. apply lookup_delete_Some in H as [_ H]. eauto.
Qed.

Lemma handleProgress_keys u attempts now w : keeps_keys w (handleProgress u attempts now w).
Proof.
  unfold handleProgress. destruct (activeJobs w !! u) as [j|] eqn:E;
    [|apply keeps_keys_refl].
  destruct (10000 <=? attempts - lastProgress j); [|apply keeps_keys_refl].
  intros k [j' H]. cbn in H.
  apply lookup_insert_Some in H as [[<- _] | [_ H]]; eauto.
Qed.

Lemma handleWorkerError_keys u message w : keeps_keys w (handleWorkerError u message w).
Proof. unfold handleWorkerError. by apply cleanupJob_keys. Qed.

Lemma handleWorkerMessage_keys u message now w :
  keeps_keys w (handleWorkerMessage u message now w).
Proof.
  unfold handleWorkerMessage. destruct (activeJobs w !! u) as [j|] eqn:E;
    [|apply keeps_keys_refl].
  destruct message; [apply handleProgress_keys | | apply handleWorkerError_keys
                    | apply keeps_keys_refl].
  unfold handleSuccess. rewrite E. cbn. by apply cleanupJob_keys.
Qed.

Lemma cancelGeneration_keys u reason w :
  keeps_keys w (fst (cancelGeneration u reason w)).
Proof.
  unfold cancelGeneration. destruct (activeJobs w !! u) as [j|];
    [|apply keeps_keys_refl].
  cbn. apply cleanupJob_keys. cbn. apply terminate_activeJobs.
Qed.

(** With the table full no event adds a requester to it. *)
Lemma step_keys e w :
  (maxConcurrentJobs <= size (activeJobs w))%nat → keeps_keys w (fst (step e w)).
Proof.
  intros Hfull. destruct e as [u p ty hex now | u reason | u now | h m now
                              | h m | h code | t]; cbn.
  - unfold startGeneration. destruct (activeJobs w !! u); [apply keeps_keys_refl|].
    apply Nat.leb_le in Hfull. rewrite Hfull. apply keeps_keys_refl.
  - pose proof (cancelGeneration_keys u (default defaultReason reason) w) as H.
    destruct (cancelGeneration u (default defaultReason reason) w). exact H.
  - apply keeps_keys_refl.
  - destruct (emitting h w); cbn;
      [apply handleWorkerMessage_keys | apply keeps_keys_refl].
  - destruct (emitting h w); cbn;
      [apply handleWorkerError_keys | apply keeps_keys_refl].
  - destruct (emitting h w); [|apply keeps_keys_refl].
    destruct (code =? 0); cbn.
    + unfold markExited. destruct (workers w !! h); intros k; cbn; auto.
    + unfold handleWorkerError. apply cleanupJob_keys. cbn.
      unfold markExited. destruct (workers w !! h); reflexivity.
  - destruct (timers w !! t) as [u|]; [|apply keeps_keys_refl]. cbn.
    apply (cancelGeneration_keys u timeoutReason (setTimers (delete t (timers w)) w)).
Qed.

Lemma startGeneration_admits u pattern type randomHex now w :
  activeJobs w !! u = None →
  (size (activeJobs w) < maxConcurrentJobs)%nat →
  valid (validatePattern pattern type) = true →
  ∃ res w',
    startGeneration u pattern type randomHex now w = (w', Returned res)
    ∧ is_Some (activeJobs w' !! u)
    ∧ size (activeJobs w') = S (size (activeJobs w)).
Proof.
  intros Hu Hsz Hv. unfold startGeneration. rewrite Hu.
  destruct (maxConcurrentJobs <=? size (activeJobs w))%nat eqn:E.
  { apply Nat.leb_le in E. lia. }
  rewrite Hv.
  destruct (validationDifficulty (validatePattern pattern type)) as [d|] eqn:Ed.
  - eexists _, _. split; [reflexivity|]. cbn. split.
    + rewrite lookup_insert_eq. eauto.
    + by rewrite map_size_insert_None.
  - exfalso. unfold validatePattern in Hv, Ed.
    destruct (Nat.eqb (String.length pattern) 0); discriminate.
Qed.

(** C9. With three jobs in the table, a start from a requester who has none
    throws [ConcurrencyLimitReached] and leaves the state as it was; and once
    an event has removed one of the three jobs from the table, a start from
    that requester with a pattern the validator accepts returns a job and
    files it. *)
Theorem concurrency_ceiling (w : world) (r4 : Z) (pattern : string)
    (type : matchType) (randomHex : string) (now : Z) :
  size (activeJobs w) = 3%nat →
  activeJobs w !! r4 = None →
  step (CallStart r4 pattern type randomHex now) w
  = (w, StartResponse (Threw ConcurrencyLimitReached))
  ∧ ∀ e r1,
      is_Some (activeJobs w !! r1) →
      activeJobs (fst (step e w)) !! r1 = None →
      valid (validatePattern pattern type) = true →
      ∃ res w',
        step (CallStart r4 pattern type randomHex now) (fst (step e w))
        = (w', StartResponse (Returned res))
        ∧ is_Some (activeJobs w' !! r4)
        ∧ resultDifficulty res = calculateDifficulty pattern type.
Proof.
  intros Hsz H4. split.
  - cbn. unfold startGeneration. rewrite H4, Hsz. reflexivity.
  - intros e r1 H1 H1' Hv.
    assert (Hk : keeps_keys w (fst (step e w))).
    { apply step_keys. rewrite Hsz. reflexivity. }
    set (w1 := fst (step e w)) in *.
    assert (H4' : activeJobs w1 !! r4 = None).
    { destruct (activeJobs w1 !! r4) as [j4|] eqn:E; [|reflexivity].
      destruct (Hk r4) as [j Hj]; [eauto | congruence]. }
    assert (Hlt : (size (activeJobs w1) < maxConcurrentJobs)%nat).
    { change maxConcurrentJobs with 3%nat. rewrite <- Hsz.
      assert (Hd : dom (activeJobs w1) ⊂ dom (activeJobs w));
        [|apply subset_size in Hd; by rewrite !size_dom in Hd].
      split.
      - intros k Hkd. apply elem_of_dom. apply Hk. by apply elem_of_dom.
      - intros Hsub. specialize (Hsub r1).
        rewrite !elem_of_dom in Hsub. rewrite H1' in Hsub.
        destruct (Hsub H1) as [? ?]. discriminate. }
    destruct (startGeneration_admits r4 pattern type randomHex now w1 H4' Hlt Hv)
      as (res & w' & E & Hin & _).
    exists res, w'. cbn. rewrite E. split; [reflexivity|]. split; [assumption|].
    unfold startGeneration in E. rewrite H4' in E.
    destruct (maxConcurrentJobs <=? size (activeJobs w1))%nat; [discriminate|].
    rewrite Hv in E.
    destruct (validationDifficulty (validatePattern pattern type)) as [d|] eqn:Ed;
      [|discriminate].
    inversion E; subst. cbn.
    unfold validatePattern in Ed.
    destruct (Nat.eqb (String.length pattern) 0); [discriminate|].
    cbn in Ed. congruence.
Qed.

(** Requesters 1, 2 and 3 hold the three slots; requester 4 is admitted
    once requester 2 has cancelled. *)
Lemma concurrency_ceiling_witness :
  let w := after [CallStart 1 "A" prefix "00aa" 0;
                  CallStart 2 "B" suffix "00bb" 5;
                  CallStart 3 "C" contains "00cc" 9] in
  step (CallStart 4 "D" prefix "00dd" 12) w
  = (w, StartResponse (Threw ConcurrencyLimitReached))
  ∧ ∃ res w',
      step (CallStart 4 "D" prefix "00dd" 12) (fst (step (CallCancel 2 None) w))
      = (w', StartResponse (Returned res))
      ∧ is_Some (activeJobs w' !! 4)
      ∧ resultDifficulty res = calculateDifficulty "D" prefix.
Proof.
  intros w.
  assert (Hsz : size (activeJobs w) = 3%nat) by (vm_compute; reflexivity).
  assert (H4 : activeJobs w !! 4 = None) by (vm_compute; reflexivity).
  destruct (concurrency_ceiling w 4 "D" prefix "00dd" 12 Hsz H4) as [Hfull Hfree].
  split; [exact Hfull|].
  apply (Hfree (CallCancel 2 None) 2).
  - vm_compute. eauto.
  - vm_compute. reflexivity.
  - vm_compute. reflexivity.
Defined.

(** ** Timeout *)

Lemma terminate_setTimers h T w :
  terminate h (setTimers T w) = setTimers T (terminate h w).
Proof. terminate_cases h w; reflexivity. Qed.

Lemma cleanupJob_cleared u j x :
  activeJobs x !! u = Some j →
  cleanupJob u (setTimers (delete (timeout j) (timers x)) x) = cleanupJob u x.
Proof.
  intros Hj. unfold cleanupJob, clearTimeout. cbn. rewrite Hj.
  rewrite delete_delete_eq. reflexivity.
Qed.

Lemma timeout_cancel_eq t u j reason w :
  activeJobs w !! u = Some j → timeout j = t →
  cancelGeneration u reason (setTimers (delete t (timers w)) w)
  = cancelGeneration u reason w.
Proof.
  intros Hj <-. unfold cancelGeneration. cbn. rewrite Hj. f_equal.
  rewrite terminate_setTimers.
  set (x := sendMessage u (CancelText reason) (terminate (worker j) w)).
  assert (Hx : activeJobs x !! u = Some j)
    by (unfold x; cbn; by rewrite terminate_activeJobs).
  rewrite <- (cleanupJob_cleared u j x Hx).
  unfold x. cbn. by rewrite terminate_timers.
Qed.

(** C5, as the code has it. When the timer of a job fires, the service does
    what [cancelGeneration] does for the requester with the reason
    "Generation timed out after 30 minutes": the call finds the job, removes
    it from the table, leaves no worker of the requester running, and sends
    the one text of a cancellation, which carries that reason. *)
Theorem timeout_is_cancel (es : list event) (t : nat) (u : Z) :
  timers (after es) !! t = Some u →
  let w := after es in
  let w' := fst (step (OnTimeout t) w) in
  step (OnTimeout t) w = (fst (cancelGeneration u timeoutReason w), NoResponse)
  ∧ snd (cancelGeneration u timeoutReason w) = true
  ∧ activeJobs w' !! u = None
  ∧ (∀ h, ¬ liveWorkerOf u h w')
  ∧ sent w' = sent w ++ [(u, CancelText timeoutReason)]
  ∧ announced (CancelText timeoutReason) = Some Cancelled.
Proof.
  intros Ht w w'.
  pose proof (after_consistent es) as C. fold w in C, Ht.
  destruct (timer_job w C t u Ht) as (j & Hj & Hjt).
  assert (E : step (OnTimeout t) w
              = (fst (cancelGeneration u timeoutReason w), NoResponse)).
  { cbn. rewrite Ht. by rewrite (timeout_cancel_eq t u j). }
  assert (E' : w' = fst (cancelGeneration u timeoutReason w))
    by (unfold w'; by rewrite E).
  split; [exact E|].
  assert (Hnone : activeJobs w' !! u = None).
  { rewrite E'. unfold cancelGeneration. rewrite Hj. cbn.
    rewrite cleanupJob_activeJobs. apply lookup_delete_eq. }
  split; [unfold cancelGeneration; by rewrite Hj|].
  split; [exact Hnone|].
  split.
  - intros h (th & Hth & Ho & Hr).
    assert (C' : consistent w') by (apply step_consistent, C).
    destruct (running_job w' C' h th Hth Hr) as (j' & Hj' & _).
    congruence.
  - split; [|reflexivity].
    rewrite E'. unfold cancelGeneration. rewrite Hj. cbn.
    rewrite cleanupJob_sent. cbn. by rewrite terminate_sent.
Qed.

(** The timer of the first job started. *)
Lemma timeout_is_cancel_witness :
  let w := after [CallStart 7 "A" prefix "00aa" 0] in
  step (OnTimeout 0) w = (fst (cancelGeneration 7 timeoutReason w), NoResponse)
  ∧ sent (fst (step (OnTimeout 0) w)) = sent w ++ [(7, CancelText timeoutReason)].
Proof.
  intros w.
  assert (Ht : timers (after [CallStart 7 "A" prefix "00aa" 0]) !! 0%nat = Some 7)
    by (vm_compute; reflexivity).
  pose proof (timeout_is_cancel [CallStart 7 "A" prefix "00aa" 0] 0 7 Ht) as H.
  cbv zeta in H. fold w in H. split; apply H.
Defined.

(** C5, as the specification states it, fails on the job of requester 7:
    when its timer fires, the text sent is that of a cancellation, not of a
    state of its own, and the state reached is the one a call of
    [cancelGeneration] with the same reason reaches. *)
Lemma timeout_announces_cancelled :
  let w := after [CallStart 7 "A" prefix "00aa" 0] in
  timers w !! 0%nat = Some 7
  ∧ sent (fst (step (OnTimeout 0) w)) = [(7, CancelText timeoutReason)]
  ∧ announced (CancelText timeoutReason) ≠ Some TimedOut
  ∧ fst (step (OnTimeout 0) w) = fst (step (CallCancel 7 (Some timeoutReason)) w).
Proof.
  cbv zeta. split; [vm_compute; reflexivity|].
  split; [vm_compute; reflexivity|].
  split; [discriminate|].
  vm_compute. reflexivity.
Qed.

(** ** Status *)

Lemma handleProgress_status u' attempts t u now w :
  getStatus u now (handleProgress u' attempts t w) = getStatus u now w.
Proof.
  unfold handleProgress. destruct (activeJobs w !! u') as [j|] eqn:E; [|reflexivity].
  destruct (10000 <=? attempts - lastProgress j); [|reflexivity].
  unfold getStatus. cbn. destruct (decide (u' = u)) as [->|Hne].
  - rewrite lookup_insert_eq, E. reflexivity.
  - by rewrite lookup_insert_ne.
Qed.

(** C10, as the code has it. [getStatus] changes nothing; for a requester
    without a job it returns nothing; for a requester with a job it returns
    the job's pattern, its match type, the formatted time since its start
    and its difficulty, and no attempt count: a progress message leaves what
    it returns as it was. *)
Theorem status_snapshot (w : world) (u : Z) (now : Z) :
  step (CallStatus u now) w = (w, StatusResponse (getStatus u now w))
  ∧ (activeJobs w !! u = None → getStatus u now w = None)
  ∧ (∀ j, activeJobs w !! u = Some j →
       getStatus u now w
       = Some {| statusPattern := pattern j;
                 statusType := type j;
                 statusElapsed := formatTime (seconds (now - startTime j));
                 statusDifficulty := jobDifficulty j |})
  ∧ (∀ h attempts t,
       getStatus u now (fst (step (OnMessage h (MsgProgress attempts) t) w))
       = getStatus u now w).
Proof.
  split; [reflexivity|]. unfold getStatus.
  split; [by intros ->|]. split; [by intros j ->|].
  intros h attempts t. cbn. destruct (emitting h w) as [th|]; [|reflexivity].
  cbn. unfold handleWorkerMessage.
  destruct (activeJobs w !! owner th); [|reflexivity].
  apply handleProgress_status.
Qed.

(** C10, as the specification states it, fails on the job of requester 7:
    after a worker report of 1000 attempts and after one of 20000 the
    snapshot is the same, so no part of it is the last reported count. *)
Lemma status_without_attempts :
  let w := after [CallStart 7 "A" prefix "00aa" 0] in
  let w1 := fst (step (OnMessage 0 (MsgProgress 1000) 10) w) in
  let w2 := fst (step (OnMessage 0 (MsgProgress 20000) 10) w) in
  getStatus 7 20 w1
  = Some {| statusPattern := "A"; statusType := prefix;
            statusElapsed := {| amount := 0; unit := Seconds |};
            statusDifficulty := calculateDifficulty "A" prefix |}
  ∧ getStatus 7 20 w1 = getStatus 7 20 w2
  ∧ ¬ ∃ attemptsObserved : statusView → Z,
        (∀ v, getStatus 7 20 w1 = Some v → attemptsObserved v = 1000)
        ∧ (∀ v, getStatus 7 20 w2 = Some v → attemptsObserved v = 20000).
Proof.
  cbv zeta.
  set (w1 := fst (step (OnMessage 0 (MsgProgress 1000) 10) _)).
  set (w2 := fst (step (OnMessage 0 (MsgProgress 20000) 10) _)).
  assert (E1 : getStatus 7 20 w1
    = Some {| statusPattern := "A"; statusType := prefix;
              statusElapsed := {| amount := 0; unit := Seconds |};
              statusDifficulty := calculateDifficulty "A" prefix |})
    by (vm_compute; reflexivity).
  assert (E2 : getStatus 7 20 w1 = getStatus 7 20 w2) by (vm_compute; reflexivity).
  split; [exact E1|]. split; [exact E2|].
  intros (f & H1 & H2). rewrite <- E2 in H2.
  specialize (H1 _ E1). specialize (H2 _ E1). lia.
Qed.

(** ** Success and teardown *)

Lemma markExited_sent h w : sent (markExited h w) = sent w.
Proof. unfold markExited. destruct (workers w !! h); reflexivity. Qed.

(** [terminate] leaves a thread that can emit events able to, under the
    same owner. *)
Lemma terminate_emitting h h' w th :
  emitting h' w = Some th →
  ∃ th', emitting h' (terminate h w) = Some th' ∧ owner th' = owner th.
Proof.
  unfold emitting. intros H.
  destruct (workers w !! h') as [t0|] eqn:E'; [|discriminate].
  assert (workers (terminate h w) !! h' = Some t0
          ∨ workers (terminate h w) !! h'
            = Some {| owner := owner t0; workerData := workerData t0;
                      status := Terminated |}) as [-> | ->].
  { unfold terminate. destruct (workers w !! h) as [t1|] eqn:E; [|auto].
    destruct (status t1); cbn; auto.
    destruct (decide (h' = h)) as [->|Hne].
    - right. rewrite list_lookup_insert_eq by (eapply lookup_lt_Some; eauto).
      congruence.
    - left. by rewrite list_lookup_insert_ne. }
  - exists th. auto.
  - cbn. eexists; split; [reflexivity|].
    destruct (status t0); inversion H; reflexivity.
Qed.

Lemma cleanupJob_emitting u h w th :
  emitting h w = Some th →
  ∃ th', emitting h (cleanupJob u w) = Some th' ∧ owner th' = owner th.
Proof.
  intros H. unfold cleanupJob. destruct (activeJobs w !! u) as [j|]; [|eauto].
  apply (terminate_emitting (worker j) h (clearTimeout (timeout j) w) th H).
Qed.

(** C3, on the success path. When a worker that can emit events reports a
    match for the job filed under its owner, [handleSuccess] builds the
    wallet record with the key material, yet the callback that ran it returns
    nothing: the step answers no one, the job is gone from the table and the
    one text sent is that of the success. *)
Theorem success_result_dropped (w : world) (h : nat) (th : workerThread)
    (j : jobInfo) (result : workerResult) (now : Z) :
  emitting h w = Some th →
  activeJobs w !! owner th = Some j →
  let e := OnMessage h (MsgSuccess result) now in
  snd (handleSuccess (owner th) result now w)
  = Some {| walletAddress := address result;
            walletPublicKey := publicKey result;
            walletPrivateKey := privateKey result;
            walletMnemonic := mnemonic result;
            isVanity := true;
            vanityPattern := pattern j;
            vanityType := type j;
            walletAttempts := attempts result;
            generationTime := now - startTime j |}
  ∧ step e w = (fst (handleSuccess (owner th) result now w), NoResponse)
  ∧ activeJobs (fst (step e w)) !! owner th = None
  ∧ sent (fst (step e w))
    = sent w ++ [(owner th,
                  SuccessText (address result) (pattern j) (type j)
                    (attempts result)
                    (formatTime (seconds (now - startTime j))))].
Proof.
  intros He Hj e.
  assert (E : step e w = (fst (handleSuccess (owner th) result now w), NoResponse)).
  { cbn. rewrite He. unfold handleWorkerMessage. by rewrite Hj. }
  split; [unfold handleSuccess; by rewrite Hj|].
  split; [exact E|]. rewrite E. cbn. unfold handleSuccess. rewrite Hj. cbn.
  split.
  - rewrite cleanupJob_activeJobs. apply lookup_delete_eq.
  - by rewrite cleanupJob_sent.
Qed.

(** Requester 7 searches for the prefix [A]; the worker reports a match
    after five seconds. *)
Lemma success_result_dropped_witness :
  let w := after [CallStart 7 "A" prefix "00aa" 0] in
  let result := {| address := "Axyz"; publicKey := "Axyz";
                   privateKey := [11; 22; 33]; mnemonic := "abandon ability";
                   attempts := 42 |} in
  let e := OnMessage 0 (MsgSuccess result) 5000 in
  snd (handleSuccess 7 result 5000 w)
  = Some {| walletAddress := "Axyz"; walletPublicKey := "Axyz";
            walletPrivateKey := [11; 22; 33];
            walletMnemonic := "abandon ability"; isVanity := true;
            vanityPattern := "A"; vanityType := prefix;
            walletAttempts := 42; generationTime := 5000 |}
  ∧ step e w = (fst (handleSuccess 7 result 5000 w), NoResponse)
  ∧ activeJobs (fst (step e w)) !! 7 = None
  ∧ sent (fst (step e w))
    = [(7, SuccessText "Axyz" "A" prefix 42 {| amount := 5; unit := Seconds |})].
Proof.
  intros w result e.
  pose (th := {| owner := 7; workerData := ("A"%string, prefix, "00aa"%string);
                 status := Running |}).
  pose (j := {| jobId := "00aa"; userId := 7; pattern := "A"; type := prefix;
                worker := 0; startTime := 0; lastProgress := 0;
                jobDifficulty := calculateDifficulty "A" prefix;
                timeout := 0 |}).
  assert (He : emitting 0 w = Some th) by (vm_compute; reflexivity).
  assert (Hj : activeJobs w !! owner th = Some j) by (vm_compute; reflexivity).
  destruct (success_result_dropped w 0 th j result 5000 He Hj) as (A & B & C & D).
  split; [exact A|]. split; [exact B|]. split; [exact C|].
  etransitivity; [exact D|]. vm_compute. reflexivity.
Defined.

(** C4, on the cancellation path. When a requester cancels a job whose
    worker is running, the cancellation text is sent and the worker is
    terminated; when the exit event of that thread then arrives with a code
    other than 0 (a terminated thread exits with 1), a failure text is sent
    for the job that is already gone: two texts for one terminal state. *)
Theorem teardown_notifies_twice (w : world) (u : Z) (j : jobInfo)
    (th : workerThread) (reason : option string) (code : Z) :
  activeJobs w !! u = Some j →
  workers w !! worker j = Some th →
  owner th = u →
  status th = Running →
  code ≠ 0 →
  let w1 := fst (step (CallCancel u reason) w) in
  let w2 := fst (step (OnExit (worker j) code) w1) in
  snd (step (CallCancel u reason) w) = CancelResponse true
  ∧ activeJobs w1 !! u = None
  ∧ sent w2 = sent w ++ [(u, CancelText (default defaultReason reason));
                         (u, ErrorText (exitMessage code))]
  ∧ terminalTexts u (sent w2)
    = terminalTexts u (sent w)
      ++ [CancelText (default defaultReason reason);
          ErrorText (exitMessage code)].
Proof.
  intros Hj Hth Ho Hs Hc w1 w2.
  set (r := default defaultReason reason) in *.
  set (x := sendMessage u (CancelText r) (terminate (worker j) w)).
  assert (E1 : step (CallCancel u reason) w = (cleanupJob u x, CancelResponse true)).
  { cbn. unfold cancelGeneration. by rewrite Hj. }
  assert (Ew1 : w1 = cleanupJob u x) by (unfold w1; by rewrite E1).
  assert (Hem : ∃ th', emitting (worker j) w1 = Some th' ∧ owner th' = u).
  { assert (H0 : emitting (worker j) w = Some th)
      by (unfold emitting; by rewrite Hth, Hs).
    destruct (terminate_emitting (worker j) _ _ _ H0) as (t1 & H1 & O1).
    assert (H2 : emitting (worker j) x = Some t1) by exact H1.
    destruct (cleanupJob_emitting u _ _ _ H2) as (t2 & H3 & O2).
    exists t2. rewrite Ew1. split; [exact H3 | congruence]. }
  destruct Hem as (th' & Hem & Ho').
  assert (Hsent1 : sent w1 = sent w ++ [(u, CancelText r)]).
  { rewrite Ew1, cleanupJob_sent. unfold x. cbn. by rewrite terminate_sent. }
  assert (Hsent2 : sent w2 = sent w ++ [(u, CancelText r); (u, ErrorText (exitMessage code))]).
  { unfold w2. cbn. rewrite Hem.
    destruct (code =? 0) eqn:Ec; [apply Z.eqb_eq in Ec; contradiction|].
    cbn. unfold handleWorkerError. rewrite cleanupJob_sent. cbn.
    rewrite markExited_sent, Hsent1, Ho', <- app_assoc. reflexivity. }
  split; [by rewrite E1|].
  split; [rewrite Ew1, cleanupJob_activeJobs; apply lookup_delete_eq|].
  split; [exact Hsent2|].
  rewrite Hsent2. unfold terminalTexts. rewrite omap_app. cbn.
  destruct (decide (u = u)); [reflexivity | contradiction].
Qed.

(** Requester 7 starts a search and cancels it; the thread exits with 1. *)
Lemma teardown_notifies_twice_witness :
  let start := CallStart 7 "A" prefix "00aa" 0 in
  snd (run [start; CallCancel 7 None] initial)
  = [StartResponse
       (Returned {| resultJobId := "00aa";
                    resultDifficulty := calculateDifficulty "A" prefix;
                    startMessage :=
                      getStartMessage "A" prefix (calculateDifficulty "A" prefix) |});
     CancelResponse true]
  ∧ terminalTexts 7 (sent (after [start; CallCancel 7 None; OnExit 0 1]))
    = [CancelText "Cancelled by user";
       ErrorText "Worker stopped with exit code 1"].
Proof.
  intros start. split; [vm_compute; reflexivity|].
  pose (th := {| owner := 7; workerData := ("A"%string, prefix, "00aa"%string);
                 status := Running |}).
  pose (j := {| jobId := "00aa"; userId := 7; pattern := "A"; type := prefix;
                worker := 0; startTime := 0; lastProgress := 0;
                jobDifficulty := calculateDifficulty "A" prefix;
                timeout := 0 |}).
  assert (Hj : activeJobs (after [start]) !! 7 = Some j) by (vm_compute; reflexivity).
  assert (Hth : workers (after [start]) !! worker j = Some th) by reflexivity.
  assert (Hc : 1 ≠ 0) by lia.
  destruct (teardown_notifies_twice (after [start]) 7 j th None 1
              Hj Hth eq_refl eq_refl Hc) as (_ & _ & _ & H).
  etransitivity; [exact H|]. vm_compute. reflexivity.
Defined.

(** * Further properties *)

(** ** Invariants of the job manager *)

Lemma sound_initial : sound initial.
Proof.
  split; cbn; intros; rewrite ?lookup_empty, ?map_size_empty in *;
    try done; unfold maxConcurrentJobs; lia.
Qed.

Lemma sendMessage_sound u t w : sound w → sound (sendMessage u t w).
Proof. intros [JT TF JW TC JC]. split; assumption. Qed.

Lemma terminate_nextTimer h w : nextTimer (terminate h w) = nextTimer w.
Proof. terminate_cases h w; reflexivity. Qed.

Lemma terminate_lookup_ne h h' w :
  h' ≠ h → workers (terminate h w) !! h' = workers w !! h'.
Proof.
  intros Hne. terminate_cases h w; cbn; try reflexivity.
  by rewrite list_lookup_insert_ne.
Qed.

Lemma terminate_idem h w : terminate h (terminate h w) = terminate h w.
Proof.
  destruct (workers w !! h) as [th|] eqn:E.
  - destruct (status th) eqn:S0.
    + assert (Ew : terminate h w
        = setWorkers (<[h := {| owner := owner th; workerData := workerData th;
                                status := Terminated |}]> (workers w)) w)
        by (unfold terminate; by rewrite E, S0).
      rewrite Ew. unfold terminate at 1. cbn.
      rewrite list_lookup_insert_eq by (eapply lookup_lt_Some; eauto).
      reflexivity.
    + assert (Ew : terminate h w = w) by (unfold terminate; by rewrite E, S0).
      by rewrite !Ew.
    + assert (Ew : terminate h w = w) by (unfold terminate; by rewrite E, S0).
      by rewrite !Ew.
  - assert (Ew : terminate h w = w) by (unfold terminate; by rewrite E).
    by rewrite !Ew.
Qed.

Lemma terminate_sendMessage h u t w :
  terminate h (sendMessage u t w) = sendMessage u t (terminate h w).
Proof. terminate_cases h w; reflexivity. Qed.

Lemma terminate_clearTimeout h t w :
  terminate h (clearTimeout t w) = clearTimeout t (terminate h w).
Proof.
  unfold clearTimeout. by rewrite terminate_setTimers, terminate_timers.
Qed.

(** The clean-up of a job terminates its worker, so terminating it first
    changes nothing. *)
Lemma cleanupJob_terminated u j w :
  activeJobs w !! u = Some j →
  cleanupJob u (terminate (worker j) w) = cleanupJob u w.
Proof.
  intros Hj. unfold cleanupJob. rewrite terminate_activeJobs, Hj. cbn zeta.
  by rewrite !terminate_clearTimeout, terminate_idem.
Qed.

Lemma cancelGeneration_world u j reason w :
  activeJobs w !! u = Some j →
  cancelGeneration u reason w
  = (cleanupJob u (sendMessage u (CancelText reason) w), true).
Proof.
  intros Hj. unfold cancelGeneration. rewrite Hj. f_equal.
  rewrite <- terminate_sendMessage.
  apply (cleanupJob_terminated u j). exact Hj.
Qed.

Lemma cleanupJob_sound u w : sound w → sound (cleanupJob u w).
Proof.
  intros [JT TF JW TC JC]. unfold cleanupJob.
  destruct (activeJobs w !! u) as [j|] eqn:E; [|by split].
  split; cbn; rewrite ?terminate_activeJobs, ?terminate_timers,
    ?terminate_nextTimer; cbn.
  - intros u' j' H. apply lookup_delete_Some in H as [Hne H].
    rewrite lookup_delete_ne; [eauto|].
    intros Heq. pose proof (JT _ _ E) as H1. pose proof (JT _ _ H) as H2.
    rewrite Heq in H1. congruence.
  - intros t u' H. apply lookup_delete_Some in H as [_ H]. eauto.
  - intros u' j' H. apply lookup_delete_Some in H as [Hne H].
    destruct (JW _ _ H) as (th & Hth & Ho & Hd & Hs).
    exists th. rewrite terminate_lookup_ne; [cbn; auto|].
    intros Heq. destruct (JW _ _ E) as (th0 & Hth0 & Ho0 & _).
    rewrite Heq in Hth. congruence.
  - rewrite map_size_delete_Some by eauto.
    rewrite map_size_delete_Some by eauto. by rewrite TC.
  - rewrite map_size_delete_Some by eauto. lia.
Qed.

Lemma startGeneration_sound u pattern type randomHex now w :
  sound w → sound (fst (startGeneration u pattern type randomHex now w)).
Proof.
  intros S. unfold startGeneration.
  destruct (activeJobs w !! u) as [j|] eqn:E; [exact S|].
  destruct (maxConcurrentJobs <=? size (activeJobs w))%nat eqn:EL; [exact S|].
  apply Nat.leb_gt in EL.
  destruct (valid (validatePattern pattern type)); [|exact S].
  destruct (validationDifficulty (validatePattern pattern type)) as [d|];
    [|exact S].
  destruct S as [JT TF JW TC JC].
  assert (Hfresh : timers w !! nextTimer w = None).
  { destruct (timers w !! nextTimer w) as [v|] eqn:Ev; [|reflexivity].
    apply TF in Ev. lia. }
  split; cbn.
  - intros u' j' H. apply lookup_insert_Some in H as [[<- <-] | [Hne H]]; cbn.
    + apply lookup_insert_eq.
    + rewrite lookup_insert_ne; [eauto|].
      intros Heq. pose proof (TF _ _ (JT _ _ H)). lia.
  - intros t u' H. apply lookup_insert_Some in H as [[<- <-] | [Hne H]];
      [lia | apply TF in H; lia].
  - intros u' j' H. apply lookup_insert_Some in H as [[<- <-] | [Hne H]]; cbn.
    + eexists. split; [by apply list_lookup_middle|]. done.
    + destruct (JW _ _ H) as (th & Hth & Hrest).
      exists th. split; [|exact Hrest]. by apply lookup_app_l_Some.
  - rewrite !map_size_insert_None by assumption. by rewrite TC.
  - rewrite map_size_insert_None by assumption. lia.
Qed.

Lemma handleProgress_sound u attempts now w :
  sound w → sound (handleProgress u attempts now w).
Proof.
  intros S. unfold handleProgress.
  destruct (activeJobs w !! u) as [j|] eqn:E; [|exact S].
  destruct (10000 <=? attempts - lastProgress j); [|exact S].
  destruct S as [JT TF JW TC JC]. split; cbn; try assumption.
  - intros u' j' H. apply lookup_insert_Some in H as [[<- <-] | [_ H]]; cbn; eauto.
  - intros u' j' H. apply lookup_insert_Some in H as [[<- <-] | [_ H]]; cbn; eauto.
  - rewrite map_size_insert_Some by eauto. exact TC.
  - rewrite map_size_insert_Some by eauto. exact JC.
Qed.

Lemma markExited_sound h w : sound w → sound (markExited h w).
Proof.
  intros [JT TF JW TC JC]. unfold markExited.
  destruct (workers w !! h) as [th0|] eqn:E; [|by split].
  split; cbn; try assumption.
  intros u j H. destruct (JW _ _ H) as (th & Hth & Ho & Hd & Hs).
  destruct (decide (worker j = h)) as [<-|Hne].
  - rewrite list_lookup_insert_eq by (eapply lookup_lt_Some; eauto).
    eexists. split; [reflexivity|]. cbn. split; [congruence|].
    split; [congruence | discriminate].
  - exists th. by rewrite list_lookup_insert_ne.
Qed.

Create HintDb sound.
#[local] Hint Resolve sound_initial sendMessage_sound cleanupJob_sound
  handleProgress_sound markExited_sound : sound.

Lemma handleWorkerError_sound u message w :
  sound w → sound (handleWorkerError u message w).
Proof. intros S. unfold handleWorkerError. auto with sound. Qed.

Lemma handleWorkerMessage_sound u message now w :
  sound w → sound (handleWorkerMessage u message now w).
Proof.
  intros S. unfold handleWorkerMessage.
  destruct (activeJobs w !! u) as [j|] eqn:E; [|exact S].
  destruct message; auto using handleWorkerError_sound with sound.
  unfold handleSuccess. rewrite E. cbn. auto with sound.
Qed.

Lemma cancelGeneration_sound u reason w :
  sound w → sound (fst (cancelGeneration u reason w)).
Proof.
  intros S. destruct (activeJobs w !! u) as [j|] eqn:E.
  - rewrite (cancelGeneration_world u j reason w E). cbn. auto with sound.
  - unfold cancelGeneration. by rewrite E.
Qed.

Lemma step_sound e w : consistent w → sound w → sound (fst (step e w)).
Proof.
  intros C S. destruct e as [u p ty hex now | u reason | u now | h m now
                            | h m | h code | t]; cbn.
  - pose proof (startGeneration_sound u p ty hex now w S) as H.
    destruct (startGeneration u p ty hex now w). exact H.
  - pose proof (cancelGeneration_sound u (default defaultReason reason) w S) as H.
    destruct (cancelGeneration u (default defaultReason reason) w). exact H.
  - exact S.
  - destruct (emitting h w); cbn; auto using handleWorkerMessage_sound.
  - destruct (emitting h w); cbn; auto using handleWorkerError_sound.
  - destruct (emitting h w); [|exact S].
    destruct (code =? 0); cbn; auto using handleWorkerError_sound with sound.
  - destruct (timers w !! t) as [u|] eqn:Et; [|exact S]. cbn.
    destruct (timer_job w C t u Et) as (j & Hj & Hjt).
    rewrite (timeout_cancel_eq t u j timeoutReason w Hj Hjt).
    by apply cancelGeneration_sound.
Qed.

Lemma run_sound es w :
  consistent w → sound w → sound (fst (run es w)).
Proof.
  revert w. induction es as [|e es IH]; intros w C S; cbn; [exact S|].
  pose proof (step_consistent e w C) as HC.
  pose proof (step_sound e w C S) as HS.
  destruct (step e w) as [w1 r]. specialize (IH w1 HC HS).
  destruct (run es w1). exact IH.
Qed.

Lemma after_sound es : sound (after es).
Proof. apply run_sound; [apply consistent_initial | apply sound_initial]. Qed.

(** X1. In every state the service reaches there are at most three jobs in
    the table, whatever calls and callbacks came before. *)
Theorem jobs_never_exceed_ceiling (es : list event) :
  (size (activeJobs (after es)) <= 3)%nat.
Proof. apply (job_count _ (after_sound es)). Qed.

(** X2. In every state the service reaches the armed timers are the
    timeouts of the jobs in the table, each armed for the requester of its
    job, and there are as many of them as jobs: no job is without its
    deadline and no deadline outlives its job. *)
Theorem timers_match_jobs (es : list event) (t : nat) (u : Z) :
  (timers (after es) !! t = Some u
   ↔ ∃ j, activeJobs (after es) !! u = Some j ∧ timeout j = t)
  ∧ size (timers (after es)) = size (activeJobs (after es)).
Proof.
  pose proof (after_consistent es) as C. pose proof (after_sound es) as S.
  split; [split|].
  - apply (timer_job _ C).
  - intros (j & Hj & <-). by apply (job_timer _ S).
  - apply (timer_count _ S).
Qed.

(** X3. The worker of a job in the table is a thread of the job's
    requester, created with the job's pattern, match type and id, and the
    service has not terminated it. *)
Theorem job_has_its_worker (es : list event) (u : Z) (j : jobInfo) :
  activeJobs (after es) !! u = Some j →
  userId j = u
  ∧ ∃ th, workers (after es) !! worker j = Some th
          ∧ owner th = u
          ∧ workerData th = (pattern j, type j, jobId j)
          ∧ status th ≠ Terminated.
Proof.
  intros Hj. split.
  - by apply (job_key _ (after_consistent es)).
  - by apply (job_worker _ (after_sound es)).
Qed.

(** Requester 2 cancels; the jobs of requesters 1 and 3 keep their workers. *)
Lemma job_has_its_worker_witness :
  let es := [CallStart 1 "A" prefix "00aa" 0; CallStart 2 "B" suffix "00bb" 5;
             CallStart 3 "Cd" contains "00cc" 9; CallCancel 2 None] in
  ∃ j th, activeJobs (after es) !! 3 = Some j
          ∧ workers (after es) !! worker j = Some th
          ∧ owner th = 3
          ∧ workerData th = ("Cd"%string, contains, "00cc"%string).
Proof.
  intros es.
  pose (j := {| jobId := "00cc"; userId := 3; pattern := "Cd"; type := contains;
                worker := 2; startTime := 9; lastProgress := 0;
                jobDifficulty := calculateDifficulty "Cd" contains;
                timeout := 2 |}).
  assert (Hj : activeJobs (after es) !! 3 = Some j) by (vm_compute; reflexivity).
  destruct (job_has_its_worker es 3 j Hj) as (_ & th & Hth & Ho & Hd & _).
  exists j, th. auto.
Defined.

(** ** One requester at a time *)

Lemma touches_refl u w : touches u w w.
Proof. split; [done|]. exists []. by rewrite app_nil_r. Qed.

Lemma touches_trans u w1 w2 w3 :
  touches u w1 w2 → touches u w2 w3 → touches u w1 w3.
Proof.
  intros [K1 (n1 & S1 & F1)] [K2 (n2 & S2 & F2)]. split.
  - intros v Hv. by rewrite K2, K1.
  - exists (n1 ++ n2). rewrite S2, S1, app_assoc. split; [done|].
    by apply Forall_app.
Qed.

Lemma touches_same u w w' :
  activeJobs w' = activeJobs w → sent w' = sent w → touches u w w'.
Proof.
  intros EA ES. split; [by rewrite EA|]. exists []. by rewrite app_nil_r.
Qed.

Lemma touches_sendMessage u t w : touches u w (sendMessage u t w).
Proof. split; [done|]. exists [(u, t)]. split; [done|]. by constructor. Qed.

Lemma touches_cleanupJob u w : touches u w (cleanupJob u w).
Proof.
  split.
  - intros v Hv. rewrite cleanupJob_activeJobs. by rewrite lookup_delete_ne.
  - exists []. by rewrite cleanupJob_sent, app_nil_r.
Qed.

Lemma touches_terminate u h w : touches u w (terminate h w).
Proof. apply touches_same; [apply terminate_activeJobs | apply terminate_sent]. Qed.

Lemma touches_markExited u h w : touches u w (markExited h w).
Proof.
  apply touches_same; [|apply markExited_sent].
  unfold markExited. destruct (workers w !! h); reflexivity.
Qed.

Lemma touches_handleWorkerError u message w :
  touches u w (handleWorkerError u message w).
Proof.
  unfold handleWorkerError.
  eapply touches_trans; [apply touches_sendMessage | apply touches_cleanupJob].
Qed.

Lemma touches_handleProgress u attempts now w :
  touches u w (handleProgress u attempts now w).
Proof.
  unfold handleProgress. destruct (activeJobs w !! u) as [j|]; [|apply touches_refl].
  destruct (10000 <=? attempts - lastProgress j); [|apply touches_refl].
  split; cbn.
  - intros v Hv. by rewrite lookup_insert_ne.
  - eexists [_]. split; [reflexivity|]. by constructor.
Qed.

Lemma touches_handleWorkerMessage u message now w :
  touches u w (handleWorkerMessage u message now w).
Proof.
  unfold handleWorkerMessage.
  destruct (activeJobs w !! u) as [j|] eqn:E; [|apply touches_refl].
  destruct message; [apply touches_handleProgress | | apply touches_handleWorkerError
                    | apply touches_refl].
  unfold handleSuccess. rewrite E. cbn.
  eapply touches_trans; [apply touches_sendMessage | apply touches_cleanupJob].
Qed.

Lemma touches_cancelGeneration u reason w :
  touches u w (fst (cancelGeneration u reason w)).
Proof.
  unfold cancelGeneration. destruct (activeJobs w !! u) as [j|]; [|apply touches_refl].
  cbn. eapply touches_trans; [apply touches_terminate|].
  eapply touches_trans; [apply touches_sendMessage | apply touches_cleanupJob].
Qed.

Lemma touches_startGeneration u pattern type randomHex now w :
  touches u w (fst (startGeneration u pattern type randomHex now w)).
Proof.
  unfold startGeneration.
  destruct (activeJobs w !! u); [apply touches_refl|].
  destruct (maxConcurrentJobs <=? size (activeJobs w))%nat; [apply touches_refl|].
  destruct (valid (validatePattern pattern type)); [|apply touches_refl].
  destruct (validationDifficulty (validatePattern pattern type));
    [|apply touches_refl].
  split; cbn.
  - intros v Hv. by rewrite lookup_insert_ne.
  - exists []. by rewrite app_nil_r.
Qed.

(** X4. An event changes the job of one requester at most, the one it
    concerns, and every text it sends goes to that requester: the jobs of
    all other requesters stay as they were. An event that concerns no
    requester (a thread that has exited, a timer that is not armed) changes
    nothing. *)
Theorem events_stay_with_their_requester (e : event) (w : world) :
  match subject e w with
  | Some u => touches u w (fst (step e w))
  | None => step e w = (w, NoResponse)
  end.
Proof.
  destruct e as [u p ty hex now | u reason | u now | h m now
                | h m | h code | t]; cbn.
  - pose proof (touches_startGeneration u p ty hex now w) as H.
    destruct (startGeneration u p ty hex now w). exact H.
  - pose proof (touches_cancelGeneration u (default defaultReason reason) w) as H.
    destruct (cancelGeneration u (default defaultReason reason) w). exact H.
  - apply touches_refl.
  - destruct (emitting h w); cbn; [apply touches_handleWorkerMessage | reflexivity].
  - destruct (emitting h w); cbn; [apply touches_handleWorkerError | reflexivity].
  - destruct (emitting h w) as [th|]; cbn; [|reflexivity].
    destruct (code =? 0); cbn; [apply touches_markExited|].
    eapply touches_trans; [apply touches_markExited | apply touches_handleWorkerError].
  - destruct (timers w !! t) as [u|]; [|reflexivity]. cbn.
    eapply touches_trans; [|apply touches_cancelGeneration].
    by apply touches_same.
Qed.

(** ** Calls in sequence *)

Lemma emitting_workers w w' h :
  workers w' = workers w → emitting h w' = emitting h w.
Proof. unfold emitting. by intros ->. Qed.

(** X5. After [cancelGeneration], whether it found a job or not, nothing
    of the requester's job is left: no job in the table, no armed timer, no
    running worker; a further cancel returns false and changes nothing, and
    a message that a worker of the requester still delivers is dropped. *)
Theorem cancel_ends_the_job (es : list event) (u : Z) (reason : string) :
  let w1 := fst (cancelGeneration u reason (after es)) in
  activeJobs w1 !! u = None
  ∧ (∀ t, timers w1 !! t ≠ Some u)
  ∧ (∀ h, ¬ liveWorkerOf u h w1)
  ∧ (∀ reason', cancelGeneration u reason' w1 = (w1, false))
  ∧ (∀ h th message now,
       emitting h w1 = Some th → owner th = u →
       step (OnMessage h message now) w1 = (w1, NoResponse)).
Proof.
  intros w1.
  assert (C1 : consistent w1)
    by apply cancelGeneration_consistent, after_consistent.
  assert (Hn : activeJobs w1 !! u = None).
  { unfold w1, cancelGeneration.
    destruct (activeJobs (after es) !! u) as [j|] eqn:E; cbn; [|exact E].
    rewrite cleanupJob_activeJobs. apply lookup_delete_eq. }
  split; [exact Hn|]. split; [|split; [|split]].
  - intros t Ht. destruct (timer_job w1 C1 t u Ht) as (j & Hj & _). congruence.
  - intros h (th & Hth & Ho & Hs).
    destruct (running_job w1 C1 h th Hth Hs) as (j & Hj & _). congruence.
  - intros reason'. unfold cancelGeneration. by rewrite Hn.
  - intros h th message now He Ho. cbn. rewrite He.
    unfold handleWorkerMessage. by rewrite Ho, Hn.
Qed.

(** X6. A start that returns files the job under its requester: a status
    call then shows the pattern and match type given, the time since the
    start and the difficulty the start returned, which is the estimate for
    that pattern and type; before the start the requester had no status. *)
Theorem start_then_status (u : Z) (pattern : string) (type : matchType)
    (randomHex : string) (started : Z) (w w' : world) (res : startResult)
    (now : Z) :
  startGeneration u pattern type randomHex started w = (w', Returned res) →
  getStatus u now w = None
  ∧ getStatus u now w'
    = Some {| statusPattern := pattern; statusType := type;
              statusElapsed := formatTime (seconds (now - started));
              statusDifficulty := resultDifficulty res |}
  ∧ resultDifficulty res = calculateDifficulty pattern type
  ∧ resultJobId res = randomHex
  ∧ valid (validatePattern pattern type) = true.
Proof.
  unfold startGeneration, getStatus.
  destruct (activeJobs w !! u) as [j|] eqn:E; [discriminate|].
  destruct (maxConcurrentJobs <=? size (activeJobs w))%nat; [discriminate|].
  destruct (valid (validatePattern pattern type)) eqn:Ev; [|discriminate].
  destruct (validationDifficulty (validatePattern pattern type)) as [d|] eqn:Ed;
    [|discriminate].
  intros H. inversion H; subst; clear H. cbn.
  rewrite lookup_insert_eq. cbn.
  repeat split; try reflexivity.
  unfold validatePattern in Ed.
  destruct (Nat.eqb (String.length pattern) 0); [discriminate|].
  cbn in Ed. congruence.
Qed.

Lemma start_then_status_witness :
  getStatus 7 90000 (after [CallStart 7 "AB" suffix "00aa" 1000])
  = Some {| statusPattern := "AB"; statusType := suffix;
            statusElapsed := {| amount := 1; unit := Minutes |};
            statusDifficulty := calculateDifficulty "AB" suffix |}.
Proof.
  destruct (startGeneration 7 "AB" suffix "00aa" 1000 initial) as [w' r] eqn:E.
  assert (Hr : ∃ res, r = Returned res) by (vm_compute in E; inversion E; eauto).
  destruct Hr as [res ->].
  destruct (start_then_status 7 "AB" suffix "00aa" 1000 initial w' res 90000 E)
    as (_ & H & Hd & _).
  unfold after. cbn. rewrite E. cbn. rewrite H, Hd. vm_compute. reflexivity.
Defined.

Lemma cleanupJob_timers u j w :
  activeJobs w !! u = Some j →
  timers (cleanupJob u w) = delete (timeout j) (timers w).
Proof.
  intros Hj. unfold cleanupJob. rewrite Hj. cbn. by rewrite terminate_timers.
Qed.

Lemma cleanupJob_workers u j w :
  activeJobs w !! u = Some j →
  workers (cleanupJob u w) = workers (terminate (worker j) w).
Proof.
  intros Hj. unfold cleanupJob. rewrite Hj. cbn.
  by rewrite terminate_clearTimeout.
Qed.

Lemma terminate_running_workers h th w :
  workers w !! h = Some th → status th = Running →
  workers (terminate h w)
  = <[h := {| owner := owner th; workerData := workerData th;
              status := Terminated |}]> (workers w).
Proof. intros Hth Hs. unfold terminate. by rewrite Hth, Hs. Qed.

(** X7. In a state the service has reached, a start that returns followed
    by a cancel of the same requester puts the table of jobs and the armed
    timers back as they were before the start; what stays is the worker
    thread, created and terminated, and the cancellation text. *)
Theorem start_then_cancel (es : list event) (u : Z) (pattern : string)
    (type : matchType) (randomHex : string) (now : Z) (w' : world)
    (res : startResult) (reason : string) :
  startGeneration u pattern type randomHex now (after es) = (w', Returned res) →
  let w'' := fst (cancelGeneration u reason w') in
  snd (cancelGeneration u reason w') = true
  ∧ activeJobs w'' = activeJobs (after es)
  ∧ timers w'' = timers (after es)
  ∧ workers w''
    = workers (after es)
      ++ [{| owner := u; workerData := (pattern, type, randomHex);
             status := Terminated |}]
  ∧ sent w'' = sent (after es) ++ [(u, CancelText reason)].
Proof.
  pose proof (after_sound es) as S. revert S.
  generalize (after es). intros w S.
  unfold startGeneration.
  destruct (activeJobs w !! u) as [j|] eqn:E; [discriminate|].
  destruct (maxConcurrentJobs <=? size (activeJobs w))%nat; [discriminate|].
  destruct (valid (validatePattern pattern type)); [|discriminate].
  destruct (validationDifficulty (validatePattern pattern type)) as [d|];
    [|discriminate].
  intros H. inversion H; subst; clear H. cbn zeta.
  assert (Hfresh : timers w !! nextTimer w = None).
  { destruct (timers w !! nextTimer w) as [v|] eqn:Ev; [|reflexivity].
    apply (timer_fresh _ S) in Ev. lia. }
  set (th := {| owner := u; workerData := (pattern, type, randomHex);
                status := Running |}).
  set (j := {| jobId := randomHex; userId := u; pattern := pattern;
               type := type; worker := length (workers w); startTime := now;
               lastProgress := 0; jobDifficulty := d; timeout := nextTimer w |}).
  match goal with |- context [cancelGeneration u reason ?x] => set (w' := x) end.
  assert (Hj : activeJobs w' !! u = Some j) by apply lookup_insert_eq.
  rewrite (cancelGeneration_world u j reason w' Hj). cbn [fst snd].
  set (x := sendMessage u (CancelText reason) w').
  assert (Hx : activeJobs x !! u = Some j) by exact Hj.
  split; [reflexivity|].
  split; [rewrite cleanupJob_activeJobs; by apply delete_insert_id|].
  split; [rewrite (cleanupJob_timers u j x Hx); by apply delete_insert_id|].
  split; [|by rewrite cleanupJob_sent].
  rewrite (cleanupJob_workers u j x Hx).
  rewrite (terminate_running_workers (worker j) th x);
    [| by apply list_lookup_middle | reflexivity].
  cbn. rewrite insert_app_r_alt by lia. by rewrite Nat.sub_diag.
Qed.

Lemma start_then_cancel_witness :
  let es := [CallStart 1 "A" prefix "00aa" 0] in
  let w'' := fst (cancelGeneration 2 "stop"
                    (fst (startGeneration 2 "B" suffix "00bb" 5 (after es)))) in
  activeJobs w'' = activeJobs (after es) ∧ timers w'' = timers (after es).
Proof.
  intros es.
  destruct (startGeneration 2 "B" suffix "00bb" 5 (after es)) as [w' r] eqn:E.
  assert (Hr : ∃ res, r = Returned res) by (vm_compute in E; inversion E; eauto).
  destruct Hr as [res ->].
  destruct (start_then_cancel es 2 "B" suffix "00bb" 5 w' res "stop" E)
    as (_ & HA & HT & _).
  cbn. split; assumption.
Defined.

Lemma markExited_keeps h w : activeJobs (markExited h w) = activeJobs w.
Proof. unfold markExited. destruct (workers w !! h); reflexivity. Qed.

(** An event adds no requester to the table, or it is a start that files
    one job more. *)
Lemma step_keys_or_adds e w :
  keeps_keys w (fst (step e w))
  ∨ ∃ v j, activeJobs (fst (step e w)) = <[v := j]> (activeJobs w).
Proof.
  destruct e as [u p ty hex now | u reason | u now | h m now
                | h m | h code | t]; cbn.
  - unfold startGeneration.
    destruct (activeJobs w !! u); [left; apply keeps_keys_refl|].
    destruct (maxConcurrentJobs <=? size (activeJobs w))%nat;
      [left; apply keeps_keys_refl|].
    destruct (valid (validatePattern p ty)); [|left; apply keeps_keys_refl].
    destruct (validationDifficulty (validatePattern p ty));
      [|left; apply keeps_keys_refl].
    right. cbn. eauto.
  - left. pose proof (cancelGeneration_keys u (default defaultReason reason) w) as H.
    destruct (cancelGeneration u (default defaultReason reason) w). exact H.
  - left. apply keeps_keys_refl.
  - left. destruct (emitting h w); cbn;
      [apply handleWorkerMessage_keys | apply keeps_keys_refl].
  - left. destruct (emitting h w); cbn;
      [apply handleWorkerError_keys | apply keeps_keys_refl].
  - left. destruct (emitting h w); [|apply keeps_keys_refl].
    destruct (code =? 0); cbn.
    + intros k. by rewrite markExited_keeps.
    + unfold handleWorkerError. apply cleanupJob_keys. cbn. apply markExited_keeps.
  - left. destruct (timers w !! t) as [u|]; [|apply keeps_keys_refl]. cbn.
    apply (cancelGeneration_keys u timeoutReason (setTimers (delete t (timers w)) w)).
Qed.

(** X8. Once an event has taken a requester's job out of the table, by a
    cancel, a success, a failure or the timeout, a new start by the same
    requester with a pattern the validator accepts returns a job: neither
    the one-job rule nor the ceiling is in its way. *)
Theorem requester_can_start_again (es : list event) (e : event) (u : Z)
    (pattern : string) (type : matchType) (randomHex : string) (now : Z) :
  is_Some (activeJobs (after es) !! u) →
  activeJobs (fst (step e (after es))) !! u = None →
  valid (validatePattern pattern type) = true →
  ∃ res w',
    startGeneration u pattern type randomHex now (fst (step e (after es)))
    = (w', Returned res)
    ∧ is_Some (activeJobs w' !! u).
Proof.
  intros Hu Hn Hv.
  pose proof (job_count _ (after_sound es)) as Hc.
  set (w := after es) in *. set (w1 := fst (step e w)) in *.
  assert (Hlt : (size (activeJobs w1) < maxConcurrentJobs)%nat).
  { assert (Hs : keeps_keys w w1 ∨ ∃ v j, activeJobs w1 = <[v := j]> (activeJobs w))
      by apply step_keys_or_adds.
    destruct Hs as [Hk | (v & j & Hadd)].
    - assert (Hd : dom (activeJobs w1) ⊂ dom (activeJobs w)).
      { split.
        - intros k Hkd. apply elem_of_dom. apply Hk. by apply elem_of_dom.
        - intros Hsub. specialize (Hsub u).
          rewrite !elem_of_dom in Hsub. rewrite Hn in Hsub.
          destruct (Hsub Hu) as [? ?]. discriminate. }
      apply subset_size in Hd. rewrite !size_dom in Hd. lia.
    - exfalso. rewrite Hadd in Hn. destruct Hu as [j0 Hj0].
      destruct (decide (v = u)) as [->|Hne].
      + by rewrite lookup_insert_eq in Hn.
      + rewrite lookup_insert_ne in Hn by done. congruence. }
  destruct (startGeneration_admits u pattern type randomHex now w1 Hn Hlt Hv)
    as (res & w' & E & Hin & _).
  eauto.
Qed.

(** The worker of requester 7 reports a failure; requester 7 starts anew. *)
Lemma requester_can_start_again_witness :
  let es := [CallStart 7 "A" prefix "00aa" 0] in
  let e := OnMessage 0 (MsgError "entropy source failed") 40 in
  ∃ res w',
    startGeneration 7 "Bc" suffix "00bb" 50 (fst (step e (after es)))
    = (w', Returned res)
    ∧ is_Some (activeJobs w' !! 7).
Proof.
  intros es e.
  apply (requester_can_start_again es e 7 "Bc" suffix "00bb" 50).
  - vm_compute. eauto.
  - vm_compute. reflexivity.
  - vm_compute. reflexivity.
Defined.

(** X9. The exit handler of a thread looks the job up by requester, not by
    thread. When a thread of a requester exits with a code other than 0 and
    is not the worker of the requester's current job (the terminated worker
    of an earlier job of his), the current job is taken out of the table all
    the same: its timer is cleared, its running worker is terminated and the
    failure text is sent. *)
Theorem stale_exit_ends_current_job (w : world) (u : Z) (j : jobInfo)
    (h : nat) (th t0 : workerThread) (code : Z) :
  activeJobs w !! u = Some j →
  emitting h w = Some th → owner th = u → h ≠ worker j →
  workers w !! worker j = Some t0 → status t0 = Running →
  code ≠ 0 →
  let w' := fst (step (OnExit h code) w) in
  activeJobs w' !! u = None
  ∧ timers w' !! timeout j = None
  ∧ (∃ t1, workers w' !! worker j = Some t1 ∧ status t1 = Terminated)
  ∧ sent w' = sent w ++ [(u, ErrorText (exitMessage code))].
Proof.
  intros Hj He Ho Hne Ht0 Hs0 Hc w'.
  assert (E : w' = cleanupJob u (sendMessage u (ErrorText (exitMessage code))
                                   (markExited h w))).
  { unfold w'. cbn. rewrite He.
    destruct (code =? 0) eqn:Ec; [apply Z.eqb_eq in Ec; contradiction|].
    cbn. by rewrite Ho. }
  set (x := sendMessage u (ErrorText (exitMessage code)) (markExited h w)) in E.
  assert (Hx : activeJobs x !! u = Some j)
    by (unfold x; cbn; by rewrite markExited_keeps).
  assert (Hw : workers x !! worker j = Some t0).
  { unfold x, markExited. cbn. destruct (workers w !! h); [|exact Ht0].
    cbn. by rewrite list_lookup_insert_ne. }
  rewrite E. split; [|split; [|split]].
  - rewrite cleanupJob_activeJobs. apply lookup_delete_eq.
  - rewrite (cleanupJob_timers u j x Hx). apply lookup_delete_eq.
  - rewrite (cleanupJob_workers u j x Hx).
    rewrite (terminate_running_workers (worker j) t0 x Hw Hs0).
    eexists. split;
      [apply list_lookup_insert_eq; eapply lookup_lt_Some; eauto | reflexivity].
  - rewrite cleanupJob_sent. unfold x. cbn. by rewrite markExited_sent.
Qed.

(** Requester 7 cancels a first search and starts a second; then the exit
    event of the first worker arrives. *)
Lemma stale_exit_ends_current_job_witness :
  let w := after [CallStart 7 "A" prefix "00aa" 0; CallCancel 7 None;
                  CallStart 7 "B" prefix "00bb" 5] in
  let w' := fst (step (OnExit 0 1) w) in
  is_Some (activeJobs w !! 7)
  ∧ activeJobs w' !! 7 = None
  ∧ sent w' = sent w ++ [(7, ErrorText (exitMessage 1))].
Proof.
  intros w w'.
  pose (j := {| jobId := "00bb"; userId := 7; pattern := "B"; type := prefix;
                worker := 1; startTime := 5; lastProgress := 0;
                jobDifficulty := calculateDifficulty "B" prefix;
                timeout := 1 |}).
  pose (th := {| owner := 7; workerData := ("A"%string, prefix, "00aa"%string);
                 status := Terminated |}).
  pose (t0 := {| owner := 7; workerData := ("B"%string, prefix, "00bb"%string);
                 status := Running |}).
  assert (Hj : activeJobs w !! 7 = Some j) by (vm_compute; reflexivity).
  assert (He : emitting 0 w = Some th) by (vm_compute; reflexivity).
  assert (Hne : 0%nat ≠ worker j) by (cbn; lia).
  assert (Ht0 : workers w !! worker j = Some t0) by (vm_compute; reflexivity).
  assert (Hc : 1 ≠ 0) by lia.
  destruct (stale_exit_ends_current_job w 7 j 0 th t0 1
              Hj He eq_refl Hne Ht0 eq_refl Hc) as (A & _ & _ & D).
  split; [rewrite Hj; eauto|]. split; [exact A | exact D].
Defined.

(** ** Progress reports *)

Lemma run_cons_fst e es w : fst (run (e :: es) w) = fst (run es (fst (step e w))).
Proof. cbn. destruct (step e w) as [w1 r]. cbn. by destruct (run es w1). Qed.

Lemma progressAttempts_app r l1 l2 :
  progressAttempts r (l1 ++ l2) = progressAttempts r l1 ++ progressAttempts r l2.
Proof. apply omap_app. Qed.

Lemma progressAttempts_one u p ty a speed elapsed :
  progressAttempts u [(u, ProgressText p ty a speed elapsed)] = [a].
Proof. cbn. by destruct (decide (u = u)). Qed.

Lemma handleProgress_job u attempts now w j :
  activeJobs w !! u = Some j →
  handleProgress u attempts now w
  = if 10000 <=? attempts - lastProgress j then
      setActiveJobs (<[u := setLastProgress attempts j]> (activeJobs w))
        (sendMessage u
           (ProgressText (pattern j) (type j) attempts
              (Num.Math_round
                 (PrimFloat.div (Num.of_Z attempts) (seconds (now - startTime j))))
              (formatTime (seconds (now - startTime j)))) w)
    else w.
Proof. intros Hj. unfold handleProgress. by rewrite Hj. Qed.

(** X10. However a worker's progress reports come in, the progress texts
    the service forwards to the requester are at least 10000 attempts apart:
    each forwarded count is one of the reported counts and lies 10000 or
    more above the count forwarded before it (above the job's
    [lastProgress] for the first), and the job's [lastProgress] ends as the
    last count forwarded. *)
Theorem progress_is_throttled (reports : list (Z * Z)) (w : world) (h : nat)
    (th : workerThread) (j : jobInfo) :
  emitting h w = Some th →
  activeJobs w !! owner th = Some j →
  let events := map (λ r, OnMessage h (MsgProgress r.1) r.2) reports in
  let w' := fst (run events w) in
  ∃ news j',
    progressAttempts (owner th) (sent w')
    = progressAttempts (owner th) (sent w) ++ news
    ∧ spaced (lastProgress j) news
    ∧ Forall (λ a, a ∈ reports.*1) news
    ∧ activeJobs w' !! owner th = Some j'
    ∧ lastProgress j' = default (lastProgress j) (last news).
Proof.
  revert w j. induction reports as [|[a now] reports IH]; intros w j He Hj.
  - exists [], j. cbn. rewrite app_nil_r. auto.
  - cbn zeta. rewrite map_cons, run_cons_fst. cbn [fst snd].
    assert (E1 : fst (step (OnMessage h (MsgProgress a) now) w)
                 = handleProgress (owner th) a now w).
    { cbn. rewrite He. cbn. unfold handleWorkerMessage. by rewrite Hj. }
    rewrite E1, (handleProgress_job _ _ _ _ _ Hj).
    destruct (10000 <=? a - lastProgress j) eqn:Ea.
    + apply Z.leb_le in Ea.
      match goal with |- context [run _ ?x] => set (w1 := x) end.
      assert (He1 : emitting h w1 = Some th) by exact He.
      assert (Hj1 : activeJobs w1 !! owner th = Some (setLastProgress a j))
        by apply lookup_insert_eq.
      destruct (IH w1 _ He1 Hj1) as (news & j' & Hs & Hsp & Hin & Hj' & Hl).
      exists (a :: news), j'. cbn [lastProgress setLastProgress] in Hsp, Hl.
      split; [|split; [|split; [|split]]].
      * rewrite Hs. unfold w1. cbn [sent sendMessage setActiveJobs].
        by rewrite progressAttempts_app, progressAttempts_one, <- app_assoc.
      * cbn. auto.
      * constructor; [cbn; left|].
        eapply Forall_impl; [exact Hin|]. cbn. intros x Hx. by right.
      * exact Hj'.
      * rewrite Hl, last_cons. by destruct (last news).
    + destruct (IH w j He Hj) as (news & j' & Hs & Hsp & Hin & Hj' & Hl).
      exists news, j'. split; [exact Hs|]. split; [exact Hsp|].
      split; [|split; assumption].
      eapply Forall_impl; [exact Hin|]. cbn. intros x Hx. by right.
Qed.

(** Reports at 4000, 12000, 15000 and 23000 attempts: the second and the
    fourth are forwarded. *)
Lemma progress_is_throttled_witness :
  let w := after [CallStart 7 "A" prefix "00aa" 0] in
  let events := map (λ r, OnMessage 0 (MsgProgress r.1) r.2)
                  [(4000, 4); (12000, 12); (15000, 15); (23000, 23)] in
  progressAttempts 7 (sent (fst (run events w))) = [12000; 23000].
Proof.
  intros w events.
  pose (th := {| owner := 7; workerData := ("A"%string, prefix, "00aa"%string);
                 status := Running |}).
  pose (j := {| jobId := "00aa"; userId := 7; pattern := "A"; type := prefix;
                worker := 0; startTime := 0; lastProgress := 0;
                jobDifficulty := calculateDifficulty "A" prefix;
                timeout := 0 |}).
  assert (He : emitting 0 w = Some th) by (vm_compute; reflexivity).
  assert (Hj : activeJobs w !! owner th = Some j) by (vm_compute; reflexivity).
  destruct (progress_is_throttled
              [(4000, 4); (12000, 12); (15000, 15); (23000, 23)] w 0 th j He Hj)
    as (news & j' & Hs & _).
  vm_compute. reflexivity.
Defined.

(** ** What the validator accepts *)

Lemma warningLevel_levelOf pattern type :
  warningLevel (calculateDifficulty pattern type)
  = levelOf (String.length pattern) type.
Proof. reflexivity. Qed.

Lemma levelOf_short n type :
  (1 <= n <= 3)%nat → levelOf n type = easy ∨ levelOf n type = medium.
Proof.
  intros Hn. assert (En : (n = 1 ∨ n = 2 ∨ n = 3)%nat) by lia.
  destruct En as [-> | [-> | ->]]; destruct type; vm_compute; auto.
Qed.

Lemma levelOf_long n type :
  (4 <= n <= 6)%nat → levelOf n type = extreme.
Proof.
  intros Hn. assert (En : (n = 4 ∨ n = 5 ∨ n = 6)%nat) by lia.
  destruct En as [-> | [-> | ->]]; destruct type; vm_compute; reflexivity.
Qed.

(** X11. The validator accepts a pattern exactly when it is made of one to
    three characters of the base58 alphabet, for every match type: the
    estimate for four characters or more is extreme and counts as an error,
    so the limit of six characters never decides. An accepted pattern is
    rated easy or medium. *)
Theorem accepted_patterns (pattern : string) (type : matchType) :
  (valid (validatePattern pattern type) = true
   ↔ (1 <= String.length pattern <= 3)%nat ∧ ¬ foreignChar pattern)
  ∧ (valid (validatePattern pattern type) = true →
     errors (validatePattern pattern type) = []
     ∧ (warningLevel (calculateDifficulty pattern type) = easy
        ∨ warningLevel (calculateDifficulty pattern type) = medium)).
Proof.
  assert (Hiff : valid (validatePattern pattern type) = true
    ↔ (1 <= String.length pattern <= 3)%nat ∧ ¬ foreignChar pattern).
  { unfold validatePattern.
    pose proof (warningLevel_levelOf pattern type) as HW.
    set (d := calculateDifficulty pattern type) in *.
    destruct (Nat.eqb (String.length pattern) 0) eqn:E0; cbn [valid].
    { apply Nat.eqb_eq in E0. split; [discriminate | lia]. }
    apply Nat.eqb_neq in E0.
    destruct (Nat.ltb maxPatternLength (String.length pattern)) eqn:EL.
    { apply Nat.ltb_lt in EL. unfold maxPatternLength in EL.
      split; [|lia].
      destruct (validBase58 pattern), (warningLevel d); discriminate. }
    apply Nat.ltb_ge in EL. unfold maxPatternLength in EL.
    destruct (validBase58 pattern) eqn:EV.
    - assert (Hf : ¬ foreignChar pattern).
      { intros Hf.
        assert (validBase58 pattern = false) by (apply validBase58_false; auto).
        congruence. }
      destruct (le_lt_dec (String.length pattern) 3) as [H3 | H3].
      + destruct (levelOf_short (String.length pattern) type) as [Hl | Hl];
          [lia | | ]; rewrite HW, Hl; cbn; (split; [intros _; split; [lia | exact Hf] | reflexivity]).
      + rewrite HW, (levelOf_long (String.length pattern) type) by lia.
        cbn. split; [discriminate | lia].
    - apply validBase58_false in EV.
      split.
      + destruct (warningLevel d); discriminate.
      + intros [Hlen Hf]. destruct EV as [-> | Hforeign]; [cbn in E0; lia | tauto]. }
  split; [exact Hiff|].
  intros Hv. split.
  - destruct (errors (validatePattern pattern type)) eqn:Ee; [reflexivity|].
    exfalso. assert (Hx : valid (validatePattern pattern type) = false).
    { apply valid_errors. rewrite Ee. discriminate. }
    congruence.
  - apply Hiff in Hv as [Hlen _]. rewrite warningLevel_levelOf.
    by apply levelOf_short.
Qed.

(** * The search worker *)

Module WorkerFacts.
Import Worker.

Lemma loop_nil ceiling pattern type c :
  loop ceiling pattern type [] c
  = if tried c <? ceiling then ([], Some c)
    else ([PostError MaxAttemptsReached], None).
Proof. reflexivity. Qed.

Lemma loop_app ceiling pattern type ds1 ds2 c :
  loop ceiling pattern type (ds1 ++ ds2) c
  = match loop ceiling pattern type ds1 c with
    | (posts, None) => (posts, None)
    | (posts, Some c1) =>
        let '(posts', r) := loop ceiling pattern type ds2 c1 in
        (posts ++ posts', r)
    end.
Proof.
  revert c. induction ds1 as [|d ds1 IH]; intros c.
  - cbn [app]. rewrite loop_nil.
    destruct (tried c <? ceiling) eqn:E.
    + by destruct (loop ceiling pattern type ds2 c).
    + destruct ds2; cbn; by rewrite E.
  - cbn [app loop]. destruct (tried c <? ceiling); [|reflexivity].
    destruct (turn pattern type d c) as [posts [c'|]]; [|reflexivity].
    rewrite IH.
    destruct (loop ceiling pattern type ds1 c') as [p1 [c1|]]; [|reflexivity].
    destruct (loop ceiling pattern type ds2 c1) as [p2 r].
    by rewrite app_assoc.
Qed.

Lemma reports_S n :
  reports (S n) = reports n ++ [PostProgress (1000 * Z.of_nat (S n))].
Proof. unfold reports. by rewrite seq_S, map_app. Qed.

Lemma turn_miss pattern type d c :
  misses pattern type d →
  turn pattern type d c
  = (if PROGRESS_INTERVAL <=? tried c + 1 - lastProgressReport c
     then [PostProgress (tried c + 1)] else [],
     Some {| tried := tried c + 1;
             lastProgressReport :=
               if PROGRESS_INTERVAL <=? tried c + 1 - lastProgressReport c
               then tried c + 1 else lastProgressReport c |}).
Proof.
  destruct d as [k|m]; [|intros []]. cbn. intros ->. reflexivity.
Qed.

(** After [1000 * q + r] draws that miss, below the ceiling: [q] reports
    have been posted and the loop goes on. *)
Lemma loop_misses ceiling pattern type draws (q r : nat) :
  Forall (misses pattern type) draws →
  length draws = (1000 * q + r)%nat → (r < 1000)%nat →
  Z.of_nat (length draws) < ceiling →
  loop ceiling pattern type draws {| tried := 0; lastProgressReport := 0 |}
  = (reports q,
     Some {| tried := Z.of_nat (length draws);
             lastProgressReport := 1000 * Z.of_nat q |}).
Proof.
  revert q r. induction draws as [|d draws IH] using rev_ind; intros q r HF Hlen Hr Hc.
  - cbn in Hlen. assert (q = 0%nat) by lia. subst q.
    rewrite loop_nil. cbn in *.
    destruct (0 <? ceiling) eqn:E; [reflexivity | apply Z.ltb_ge in E; lia].
  - apply Forall_app in HF as [HF Hd]. apply Forall_inv in Hd.
    rewrite length_app in *. cbn [length] in *.
    rewrite loop_app.
    destruct r as [|r].
    + (* the report falls on this draw *)
      destruct q as [|q]; [lia|].
      rewrite (IH q 999%nat HF) by lia.
      cbn [loop]. cbn [tried].
      destruct (Z.of_nat (length draws) <? ceiling) eqn:E;
        [|apply Z.ltb_ge in E; lia].
      rewrite (turn_miss _ _ _ _ Hd). cbn [tried lastProgressReport].
      unfold PROGRESS_INTERVAL.
      destruct (1000 <=? Z.of_nat (length draws) + 1 - 1000 * Z.of_nat q) eqn:E1;
        [|apply Z.leb_gt in E1; lia].
      destruct (Z.of_nat (length draws) + 1 <? ceiling) eqn:E2;
        [|apply Z.ltb_ge in E2; lia].
      rewrite reports_S, app_nil_r.
      repeat f_equal; lia.
    + rewrite (IH q r HF) by lia.
      cbn [loop]. cbn [tried].
      destruct (Z.of_nat (length draws) <? ceiling) eqn:E;
        [|apply Z.ltb_ge in E; lia].
      rewrite (turn_miss _ _ _ _ Hd). cbn [tried lastProgressReport].
      unfold PROGRESS_INTERVAL.
      destruct (1000 <=? Z.of_nat (length draws) + 1 - 1000 * Z.of_nat q) eqn:E1;
        [apply Z.leb_le in E1; lia|].
      destruct (Z.of_nat (length draws) + 1 <? ceiling) eqn:E2;
        [|apply Z.ltb_ge in E2; lia].
      rewrite !app_nil_r.
      repeat f_equal; lia.
Qed.

Lemma split_thousands (n : nat) :
  ∃ q r, n = (1000 * q + r)%nat ∧ (r < 1000)%nat ∧ q = (n / 1000)%nat.
Proof.
  exists (n / 1000)%nat, (n mod 1000)%nat.
  split; [apply Nat.div_mod_eq|]. split; [|reflexivity].
  apply Nat.mod_upper_bound. lia.
Qed.

(** Up to the ceiling: after [n] draws that miss, [n / 1000] reports have
    been posted; the loop goes on below the ceiling and ends with the error
    at it. *)
Lemma loop_misses_div ceiling pattern type draws :
  Forall (misses pattern type) draws →
  Z.of_nat (length draws) < ceiling →
  loop ceiling pattern type draws {| tried := 0; lastProgressReport := 0 |}
  = (reports (length draws / 1000),
     Some {| tried := Z.of_nat (length draws);
             lastProgressReport := 1000 * Z.of_nat (length draws / 1000) |}).
Proof.
  intros HF Hc. destruct (split_thousands (length draws)) as (q & r & Hn & Hr & Hq).
  rewrite <- Hq. by apply (loop_misses ceiling pattern type draws q r).
Qed.

Lemma reports_next (n : nat) :
  reports (S n / 1000)
  = reports (n / 1000)
    ++ (if 1000 <=? Z.of_nat n + 1 - 1000 * Z.of_nat (n / 1000)
        then [PostProgress (Z.of_nat n + 1)] else []).
Proof.
  destruct (split_thousands n) as (q & r & Hn & Hr & Hq). rewrite <- Hq.
  destruct (1000 <=? Z.of_nat n + 1 - 1000 * Z.of_nat q) eqn:E.
  - apply Z.leb_le in E.
    assert (Hs : (S n / 1000 = S q)%nat).
    { symmetry. apply (Nat.div_unique _ _ _ 0%nat); lia. }
    rewrite Hs, reports_S. repeat f_equal. lia.
  - apply Z.leb_gt in E.
    assert (Hs : (S n / 1000 = q)%nat).
    { symmetry. apply (Nat.div_unique _ _ _ (S r)); lia. }
    by rewrite Hs, app_nil_r.
Qed.

(** X12. While every wallet drawn fails the test and the ceiling is not
    reached, the worker posts a progress report at every thousandth attempt
    and nothing else: after n draws the reports are those for 1000, 2000,
    ..., up to n, and the loop goes on. *)
Theorem progress_every_thousand (pattern : string) (type : matchType)
    (draws : list drawn) :
  Forall (misses pattern type) draws →
  Z.of_nat (length draws) < MAX_ATTEMPTS →
  generateVanityWallet pattern type draws
  = (reports (length draws / 1000),
     Some {| tried := Z.of_nat (length draws);
             lastProgressReport := 1000 * Z.of_nat (length draws / 1000) |}).
Proof. intros HF Hc. by apply loop_misses_div. Qed.

(** 2500 draws of an address that does not start with [AB]. *)
Lemma progress_every_thousand_witness :
  let k := {| walletMnemonicPhrase := "abandon ability";
              walletKeyAddress := "7xKXtg2CW87d97TXJSDpbD5jBkheTqA83TZRuJosgAsU";
              walletSecretKey := [11; 22; 33] |} in
  generateVanityWallet "AB" prefix (replicate 2500 (Drawn k))
  = ([PostProgress 1000; PostProgress 2000],
     Some {| tried := 2500; lastProgressReport := 2000 |}).
Proof.
  intros k.
  assert (HF : Forall (misses "AB" prefix) (replicate 2500 (Drawn k)))
    by (apply Forall_replicate; reflexivity).
  assert (Hc : Z.of_nat (length (replicate 2500 (Drawn k))) < MAX_ATTEMPTS)
    by (rewrite length_replicate; reflexivity).
  rewrite (progress_every_thousand "AB" prefix _ HF Hc).
  rewrite length_replicate. reflexivity.
Defined.

(** X13. The worker reports the first wallet drawn whose address passes
    the test: after the progress reports due up to that attempt it posts
    the success with that wallet's address, key and mnemonic and with the
    number of the attempt, and ends; what would have been drawn after it
    plays no part. *)
Theorem first_match_is_reported (pattern : string) (type : matchType)
    (before : list drawn) (k : wallet) (rest : list drawn) :
  Forall (misses pattern type) before →
  matches pattern type (walletKeyAddress k) = true →
  Z.of_nat (length before) < MAX_ATTEMPTS →
  generateVanityWallet pattern type (before ++ Drawn k :: rest)
  = (reports (S (length before) / 1000)
     ++ [PostSuccess {| address := walletKeyAddress k;
                        publicKey := walletKeyAddress k;
                        privateKey := walletSecretKey k;
                        mnemonic := walletMnemonicPhrase k;
                        attempts := Z.of_nat (length before) + 1 |}],
     None).
Proof.
  intros HF Hm Hc. unfold generateVanityWallet.
  rewrite loop_app, (loop_misses_div _ _ _ _ HF Hc).
  cbn [loop tried].
  destruct (Z.of_nat (length before) <? MAX_ATTEMPTS) eqn:E;
    [|apply Z.ltb_ge in E; lia].
  unfold turn. rewrite Hm. cbn [tried lastProgressReport].
  unfold PROGRESS_INTERVAL. rewrite reports_next, <- app_assoc.
  reflexivity.
Qed.

Lemma first_match_is_reported_witness :
  let miss := {| walletMnemonicPhrase := "abandon ability";
                 walletKeyAddress := "7xKXtg2CW87d97TXJSDpbD5jBkheTqA83TZRuJosgAsU";
                 walletSecretKey := [11; 22; 33] |} in
  let hit := {| walletMnemonicPhrase := "legal winner";
                walletKeyAddress := "aBcd2CW87d97TXJSDpbD5jBkheTqA83TZRuJosgAsUxyz";
                walletSecretKey := [44; 55] |} in
  generateVanityWallet "ab" prefix [Drawn miss; Drawn miss; Drawn hit; Drawn miss]
  = ([PostSuccess {| address := walletKeyAddress hit;
                     publicKey := walletKeyAddress hit;
                     privateKey := [44; 55]; mnemonic := "legal winner";
                     attempts := 3 |}], None).
Proof.
  intros miss hit.
  assert (HF : Forall (misses "ab" prefix) [Drawn miss; Drawn miss])
    by (repeat constructor).
  assert (Hm : matches "ab" prefix (walletKeyAddress hit) = true) by reflexivity.
  assert (Hc : Z.of_nat (length [Drawn miss; Drawn miss]) < MAX_ATTEMPTS)
    by reflexivity.
  exact (first_match_is_reported "ab" prefix [Drawn miss; Drawn miss] hit
           [Drawn miss] HF Hm Hc).
Defined.

Lemma loop_at_ceiling ceiling pattern type draws :
  Forall (misses pattern type) draws →
  Z.of_nat (length draws) = ceiling →
  loop ceiling pattern type draws {| tried := 0; lastProgressReport := 0 |}
  = (reports (length draws / 1000) ++ [PostError MaxAttemptsReached], None).
Proof.
  intros HF Hc. destruct draws as [|d draws] using rev_ind.
  - rewrite loop_nil. cbn in *. subst ceiling. reflexivity.
  - clear IHdraws. apply Forall_app in HF as [HF Hd]. apply Forall_inv in Hd.
    rewrite length_app in *. cbn [length] in *.
    rewrite loop_app, (loop_misses_div _ _ _ _ HF) by lia.
    cbn [loop tried].
    destruct (Z.of_nat (length draws) <? ceiling) eqn:E;
      [|apply Z.ltb_ge in E; lia].
    rewrite (turn_miss _ _ _ _ Hd). cbn [tried lastProgressReport].
    destruct (Z.of_nat (length draws) + 1 <? ceiling) eqn:E2;
      [apply Z.ltb_lt in E2; lia|].
    unfold PROGRESS_INTERVAL.
    replace (length draws + 1)%nat with (S (length draws)) by lia.
    by rewrite reports_next, <- app_assoc.
Qed.

Lemma loop_exhausts ceiling pattern type draws :
  0 <= ceiling →
  Forall (misses pattern type) (take (Z.to_nat ceiling) draws) →
  ceiling <= Z.of_nat (length draws) →
  loop ceiling pattern type draws {| tried := 0; lastProgressReport := 0 |}
  = (reports (Z.to_nat (ceiling / 1000)) ++ [PostError MaxAttemptsReached], None).
Proof.
  intros H0 HF Hlen.
  remember (Z.to_nat ceiling) as N eqn:EN.
  assert (HN : Z.of_nat N = ceiling) by lia.
  assert (Ht : length (take N draws) = N) by (rewrite length_take; lia).
  rewrite <- (take_drop N draws), loop_app.
  rewrite (loop_at_ceiling ceiling pattern type (take N draws) HF)
    by (rewrite Ht; exact HN).
  rewrite Ht.
  assert (Hq : (N / 1000)%nat = Z.to_nat (ceiling / 1000)).
  { rewrite Z2Nat.inj_div by lia. rewrite <- EN. reflexivity. }
  by rewrite Hq.
Qed.

(** X14. When the first hundred million wallets drawn all fail the test,
    the worker ends there: it has posted the hundred thousand progress
    reports and posts the error of the exhausted attempts as its last
    message, whatever would be drawn next. *)
Theorem ceiling_ends_the_search (pattern : string) (type : matchType)
    (draws : list drawn) :
  Forall (misses pattern type) (take (Z.to_nat MAX_ATTEMPTS) draws) →
  MAX_ATTEMPTS <= Z.of_nat (length draws) →
  generateVanityWallet pattern type draws
  = (reports (Z.to_nat (MAX_ATTEMPTS / 1000)) ++ [PostError MaxAttemptsReached],
     None).
Proof.
  intros HF Hlen. apply loop_exhausts; [|exact HF | exact Hlen].
  unfold MAX_ATTEMPTS. lia.
Qed.

(** A hundred million draws of one address that does not end in [zz]. *)
Lemma ceiling_ends_the_search_witness :
  let k := {| walletMnemonicPhrase := "abandon ability";
              walletKeyAddress := "7xKXtg2CW87d97TXJSDpbD5jBkheTqA83TZRuJosgAsU";
              walletSecretKey := [11; 22; 33] |} in
  generateVanityWallet "zz" suffix (replicate (Z.to_nat MAX_ATTEMPTS) (Drawn k))
  = (reports (Z.to_nat (MAX_ATTEMPTS / 1000)) ++ [PostError MaxAttemptsReached],
     None).
Proof.
  intros k. apply ceiling_ends_the_search.
  - apply Forall_take, Forall_replicate. reflexivity.
  - rewrite length_replicate. unfold MAX_ATTEMPTS. lia.
Defined.

Lemma misses_dec pattern type d : {misses pattern type d} + {¬ misses pattern type d}.
Proof.
  destruct d as [k|m]; cbn; [|right; tauto].
  destruct (matches pattern type (walletKeyAddress k)); [right | left]; congruence.
Qed.

Lemma first_not_missing pattern type draws :
  Forall (misses pattern type) draws
  ∨ ∃ before d rest, draws = before ++ d :: rest
                     ∧ Forall (misses pattern type) before
                     ∧ ¬ misses pattern type d.
Proof.
  induction draws as [|d draws IH]; [left; constructor|].
  destruct (misses_dec pattern type d) as [Hd | Hd].
  - destruct IH as [IH | (before & d' & rest & -> & HF & Hd')].
    + left. by constructor.
    + right. exists (d :: before), d', rest. repeat split; auto.
  - right. exists [], d, draws. repeat split; auto.
Qed.

Lemma loop_ends_at ceiling pattern type before d rest :
  Forall (misses pattern type) before →
  ¬ misses pattern type d →
  Z.of_nat (length before) < ceiling →
  ∃ q last,
    loop ceiling pattern type (before ++ d :: rest)
      {| tried := 0; lastProgressReport := 0 |}
    = (reports q ++ [last], None)
    ∧ isTerminal last = true.
Proof.
  intros HF Hd Hc.
  rewrite loop_app, (loop_misses_div _ _ _ _ HF Hc). cbn [loop tried].
  destruct (Z.of_nat (length before) <? ceiling) eqn:E;
    [|apply Z.ltb_ge in E; lia].
  unfold turn. destruct d as [k|m].
  - cbn in Hd. destruct (matches pattern type (walletKeyAddress k)); [|congruence].
    cbn [tried lastProgressReport]. unfold PROGRESS_INTERVAL.
    eexists (S (length before) / 1000)%nat, _.
    rewrite reports_next, <- app_assoc. split; reflexivity.
  - eexists _, _. split; reflexivity.
Qed.

(** X15. Whatever is drawn and thrown, what the worker posts is the
    progress reports for 1000, 2000, ... attempts in order, as far as it
    gets, followed by one success or error at most; it ends exactly when it
    has posted that one, and posts nothing after it. *)
Theorem reports_then_one_outcome (pattern : string) (type : matchType)
    (draws : list drawn) :
  ∃ q,
    match generateVanityWallet pattern type draws with
    | (posts, None) =>
        ∃ last, posts = reports q ++ [last] ∧ isTerminal last = true
    | (posts, Some c) =>
        posts = reports q
        ∧ tried c = Z.of_nat (length draws)
        ∧ lastProgressReport c = 1000 * Z.of_nat q
    end.
Proof.
  unfold generateVanityWallet.
  assert (H0 : 0 <= MAX_ATTEMPTS) by (unfold MAX_ATTEMPTS; lia).
  destruct (first_not_missing pattern type draws)
    as [HF | (before & d & rest & -> & HF & Hd)].
  - destruct (Z_lt_le_dec (Z.of_nat (length draws)) MAX_ATTEMPTS) as [Hc | Hc].
    + rewrite (loop_misses_div _ _ _ _ HF Hc). eexists. repeat split.
    + rewrite (loop_exhausts MAX_ATTEMPTS pattern type draws H0
                 (Forall_take _ _ _ HF) Hc).
      eexists. eexists. split; reflexivity.
  - destruct (Z_lt_le_dec (Z.of_nat (length before)) MAX_ATTEMPTS) as [Hc | Hc].
    + destruct (loop_ends_at MAX_ATTEMPTS pattern type before d rest HF Hd Hc)
        as (q & last & -> & Hl).
      exists q, last. auto.
    + rewrite (loop_exhausts MAX_ATTEMPTS pattern type (before ++ d :: rest) H0).
      * eexists. eexists. split; reflexivity.
      * rewrite take_app_le by lia. by apply Forall_take.
      * rewrite length_app. lia.
Qed.

Lemma turn_success pattern type d c posts r result :
  turn pattern type d c = (posts, r) →
  In (PostSuccess result) posts →
  r = None
  ∧ matches pattern type (address result) = true
  ∧ publicKey result = address result
  ∧ attempts result = tried c + 1
  ∧ ∃ k, d = Drawn k ∧ walletKeyAddress k = address result
         ∧ walletSecretKey k = privateKey result
         ∧ walletMnemonicPhrase k = mnemonic result.
Proof.
  unfold turn. destruct d as [k|m].
  - destruct (matches pattern type (walletKeyAddress k)) eqn:Hm;
      intros H Hin; inversion H; subst; clear H.
    + apply in_app_or in Hin as [Hin | [Hin | []]].
      * destruct (PROGRESS_INTERVAL <=? _); [destruct Hin as [Hin | []]|destruct Hin];
          discriminate.
      * inversion Hin; subst; cbn. repeat split; eauto.
    + destruct (PROGRESS_INTERVAL <=? _); [destruct Hin as [Hin | []]|destruct Hin];
        discriminate.
  - intros H Hin. inversion H; subst. destruct Hin as [Hin | []]. discriminate.
Qed.

Lemma turn_counts pattern type d c posts c' :
  turn pattern type d c = (posts, Some c') → tried c' = tried c + 1.
Proof.
  unfold turn. destruct d as [k|m]; [|discriminate].
  destruct (matches pattern type (walletKeyAddress k)); [discriminate|].
  intros H. inversion H. reflexivity.
Qed.

Lemma loop_success ceiling pattern type draws c posts r result :
  loop ceiling pattern type draws c = (posts, r) →
  In (PostSuccess result) posts →
  r = None
  ∧ matches pattern type (address result) = true
  ∧ publicKey result = address result
  ∧ tried c < attempts result <= ceiling
  ∧ ∃ k, In (Drawn k) draws ∧ walletKeyAddress k = address result
         ∧ walletSecretKey k = privateKey result
         ∧ walletMnemonicPhrase k = mnemonic result.
Proof.
  revert c posts r. induction draws as [|d draws IH]; intros c posts r.
  - rewrite loop_nil. destruct (tried c <? ceiling); intros H Hin;
      inversion H; subst; [destruct Hin | destruct Hin as [Hin | []]; discriminate].
  - cbn [loop]. destruct (tried c <? ceiling) eqn:E.
    + apply Z.ltb_lt in E.
      destruct (turn pattern type d c) as [p1 [c'|]] eqn:ET.
      * destruct (loop ceiling pattern type draws c') as [p2 r2] eqn:EL.
        intros H Hin. inversion H; subst; clear H.
        apply in_app_or in Hin as [Hin | Hin].
        -- destruct (turn_success _ _ _ _ _ _ _ ET Hin) as (Hr & _). discriminate.
        -- destruct (IH _ _ _ EL Hin) as (Hr & Hm & Hp & Ha & k & Hk & Hrest).
           pose proof (turn_counts _ _ _ _ _ _ ET).
           split; [exact Hr|]. split; [exact Hm|]. split; [exact Hp|].
           split; [lia|]. exists k. split; [by right | exact Hrest].
      * intros H Hin. inversion H; subst; clear H.
        destruct (turn_success _ _ _ _ _ _ _ ET Hin)
          as (_ & Hm & Hp & Ha & k & -> & Hrest).
        split; [reflexivity|]. split; [exact Hm|]. split; [exact Hp|].
        split; [lia|]. exists k. split; [by left | exact Hrest].
    + intros H Hin. inversion H; subst. destruct Hin as [Hin | []]. discriminate.
Qed.

(** X16. A success the worker posts is sound, whatever was drawn and
    thrown before: its address passes the test of the pattern and match
    type (on the capitals of both), its public key is that address, its
    key and mnemonic are those of one of the wallets drawn, its attempt
    number lies between 1 and the ceiling, and the worker has ended. *)
Theorem success_is_a_match (pattern : string) (type : matchType)
    (draws : list drawn) (posts : list posted) (r : option counters)
    (result : workerResult) :
  generateVanityWallet pattern type draws = (posts, r) →
  In (PostSuccess result) posts →
  r = None
  ∧ matches pattern type (address result) = true
  ∧ publicKey result = address result
  ∧ 1 <= attempts result <= MAX_ATTEMPTS
  ∧ ∃ k, In (Drawn k) draws ∧ walletKeyAddress k = address result
         ∧ walletSecretKey k = privateKey result
         ∧ walletMnemonicPhrase k = mnemonic result.
Proof.
  intros H Hin.
  destruct (loop_success _ _ _ _ _ _ _ _ H Hin) as (Hr & Hm & Hp & Ha & Hk).
  cbn in Ha. repeat split; try assumption; lia.
Qed.

(** A wallet whose address holds [MoOn], drawn second, for the pattern
    [moon] anywhere. *)
Lemma success_is_a_match_witness :
  let miss := {| walletMnemonicPhrase := "abandon ability";
                 walletKeyAddress := "7xKXtg2CW87d97TXJSDpbD5jBkheTqA83TZRuJosgAsU";
                 walletSecretKey := [11; 22; 33] |} in
  let hit := {| walletMnemonicPhrase := "legal winner";
                walletKeyAddress := "9fDMoOnW87d97TXJSDpbD5jBkheTqA83TZRuJosgAsUx";
                walletSecretKey := [44; 55] |} in
  matches "moon" contains (walletKeyAddress hit) = true
  ∧ 1 <= 2 <= MAX_ATTEMPTS.
Proof.
  intros miss hit.
  set (result := {| address := walletKeyAddress hit;
                    publicKey := walletKeyAddress hit;
                    privateKey := [44; 55]; mnemonic := "legal winner";
                    attempts := 2 |}).
  assert (H : generateVanityWallet "moon" contains [Drawn miss; Drawn hit]
              = ([PostSuccess result], None)) by reflexivity.
  assert (Hin : In (PostSuccess result) [PostSuccess result]) by (left; reflexivity).
  destruct (success_is_a_match "moon" contains _ _ _ result H Hin)
    as (_ & Hm & _ & Ha & _).
  split; [exact Hm | exact Ha].
Defined.

(** ** The test of an address *)

Lemma upper_idem c : upper (upper c) = upper c.
Proof.
  destruct c as [b0 b1 b2 b3 b4 b5 b6 b7].
  destruct b0, b1, b2, b3, b4, b5, b6, b7; reflexivity.
Qed.

Lemma toUpperCase_idem s : toUpperCase (toUpperCase s) = toUpperCase s.
Proof. induction s as [|c s IH]; cbn; [reflexivity|]. by rewrite upper_idem, IH. Qed.

Lemma includes_prefix s p : String.prefix p s = true → includes s p = true.
Proof. intros H. destruct s; cbn [includes]; by rewrite H. Qed.

Lemma includes_substring p s k :
  String.substring k (String.length p) s = p → includes s p = true.
Proof.
  revert k. induction s as [|c s IH]; intros k H.
  - assert (p = EmptyString) by (destruct k, (String.length p); cbn in H; congruence).
    by subst.
  - destruct k as [|k].
    + apply includes_prefix, prefix_correct. exact H.
    + cbn [includes]. rewrite (IH k); [apply orb_true_r|]. exact H.
Qed.

Lemma substring_none n s : String.substring n 0 s = EmptyString.
Proof.
  revert n. induction s as [|c s IH]; intros [|n]; cbn; auto.
Qed.

(** X17. The test of an address ignores the case of letters, in the
    pattern and in the address alike; an address that passes as prefix or
    as suffix passes as [contains]; and every address passes the test of
    the empty pattern, whatever the match type. *)
Theorem matching_facts (pattern address : string) (type : matchType) :
  matches (toUpperCase pattern) type address = matches pattern type address
  ∧ matches pattern type (toUpperCase address) = matches pattern type address
  ∧ (matches pattern prefix address = true →
     matches pattern contains address = true)
  ∧ (matches pattern suffix address = true →
     matches pattern contains address = true)
  ∧ matches EmptyString type address = true.
Proof.
  unfold matches. rewrite !toUpperCase_idem.
  split; [reflexivity|]. split; [reflexivity|]. split; [|split].
  - apply includes_prefix.
  - unfold endsWith. intros H. apply andb_true_iff in H as [_ H].
    apply String.eqb_eq in H. by apply includes_substring in H.
  - cbn [toUpperCase].
    destruct type; unfold startsWith, endsWith; cbn [String.length];
      try (by destruct (toUpperCase address)).
    rewrite substring_none. reflexivity.
Qed.

End WorkerFacts.

(** * The worker's reports at the manager *)

Lemma run_app_fst es1 es2 w :
  fst (run (es1 ++ es2) w) = fst (run es2 (fst (run es1 w))).
Proof.
  revert w. induction es1 as [|e es1 IH]; intros w; [reflexivity|].
  cbn [app]. by rewrite !run_cons_fst, IH.
Qed.

Lemma split_tens (n : nat) :
  ∃ q r, n = (10 * q + r)%nat ∧ (r < 10)%nat ∧ q = (n / 10)%nat.
Proof.
  exists (n / 10)%nat, (n mod 10)%nat.
  split; [apply Nat.div_mod_eq|]. split; [|reflexivity].
  apply Nat.mod_upper_bound. lia.
Qed.

Lemma tenth_next (n : nat) :
  if 10000 <=? 1000 * Z.of_nat (S n) - 10000 * Z.of_nat (n / 10)
  then (S n / 10 = S (n / 10))%nat
       ∧ 1000 * Z.of_nat (S n) = 10000 * Z.of_nat (S (n / 10))
  else (S n / 10 = n / 10)%nat.
Proof.
  destruct (split_tens n) as (q & r & Hn & Hr & Hq). rewrite <- Hq.
  destruct (10000 <=? 1000 * Z.of_nat (S n) - 10000 * Z.of_nat q) eqn:E.
  - apply Z.leb_le in E. split; [|lia].
    symmetry. apply (Nat.div_unique _ _ _ 0%nat); lia.
  - apply Z.leb_gt in E.
    symmetry. apply (Nat.div_unique _ _ _ (S r)); lia.
Qed.

Lemma forwarded_next (n : nat) :
  map (λ k, 10000 * Z.of_nat k) (seq 1 (S n / 10))
  = map (λ k, 10000 * Z.of_nat k) (seq 1 (n / 10))
    ++ (if 10000 <=? 1000 * Z.of_nat (S n) - 10000 * Z.of_nat (n / 10)
        then [1000 * Z.of_nat (S n)] else []).
Proof.
  pose proof (tenth_next n) as H.
  destruct (10000 <=? 1000 * Z.of_nat (S n) - 10000 * Z.of_nat (n / 10)).
  - destruct H as [Hs Ha]. rewrite Hs, seq_S, map_app. cbn [map].
    by rewrite Ha.
  - by rewrite H, app_nil_r.
Qed.

Lemma reports_forwarded (w : world) (h : nat) (th : workerThread)
    (j : jobInfo) (n : nat) (clock : nat → Z)
    (describe : Worker.workerError → string) :
  emitting h w = Some th →
  activeJobs w !! owner th = Some j →
  lastProgress j = 0 →
  let events := imap (λ i p, OnMessage h (Worker.delivered describe p) (clock i))
                  (Worker.reports n) in
  let w' := fst (run events w) in
  emitting h w' = Some th
  ∧ (∃ j', activeJobs w' !! owner th = Some j'
           ∧ lastProgress j' = 10000 * Z.of_nat (n / 10))
  ∧ progressAttempts (owner th) (sent w')
    = progressAttempts (owner th) (sent w)
      ++ map (λ k, 10000 * Z.of_nat k) (seq 1 (n / 10)).
Proof.
  intros He Hj Hl. induction n as [|n IH].
  - cbn. split; [exact He|]. split; [exists j; split; [exact Hj | rewrite Hl; reflexivity]|].
    by rewrite app_nil_r.
  - cbn zeta in *. destruct IH as (He' & (j' & Hj' & Hl') & Hs).
    rewrite WorkerFacts.reports_S, imap_app, run_app_fst.
    set (w1 := fst (run (imap _ (Worker.reports n)) w)) in *.
    cbn [imap Worker.delivered]. rewrite run_cons_fst. cbn [run fst].
    assert (E1 : ∀ a now, fst (step (OnMessage h (MsgProgress a) now) w1)
                          = handleProgress (owner th) a now w1).
    { intros a now. cbn. rewrite He'. cbn. unfold handleWorkerMessage.
      by rewrite Hj'. }
    rewrite E1, (handleProgress_job _ _ _ _ _ Hj'), Hl', forwarded_next.
    pose proof (tenth_next n) as HT.
    destruct (10000 <=? 1000 * Z.of_nat (S n) - 10000 * Z.of_nat (n / 10)).
    + destruct HT as [Hq Ha]. split; [exact He'|]. split.
      * eexists. split; [apply lookup_insert_eq|].
        cbn [lastProgress setLastProgress]. by rewrite Hq.
      * cbn [sent sendMessage setActiveJobs].
        by rewrite progressAttempts_app, progressAttempts_one, Hs, <- app_assoc.
    + split; [exact He'|]. split.
      * exists j'. split; [exact Hj'|]. by rewrite Hl', HT.
      * by rewrite Hs, app_nil_r.
Qed.

(** X18. Of the reports a worker posts every thousand attempts, the
    manager forwards every tenth to the requester: for a job that has
    forwarded nothing yet, after the reports for 1000, ..., 1000 * n the
    progress texts sent are those for 10000, 20000, ..., up to 1000 * n,
    whenever the reports arrive. *)
Theorem reports_forwarded_every_tenth (w : world) (h : nat)
    (th : workerThread) (j : jobInfo) (n : nat) (clock : nat → Z)
    (describe : Worker.workerError → string) :
  emitting h w = Some th →
  activeJobs w !! owner th = Some j →
  lastProgress j = 0 →
  let events := imap (λ i p, OnMessage h (Worker.delivered describe p) (clock i))
                  (Worker.reports n) in
  progressAttempts (owner th) (sent (fst (run events w)))
  = progressAttempts (owner th) (sent w)
    ++ map (λ k, 10000 * Z.of_nat k) (seq 1 (n / 10)).
Proof.
  intros He Hj Hl events.
  apply (reports_forwarded w h th j n clock describe He Hj Hl).
Qed.

(** Twenty-five reports, one a second, to the job requester 7 started. *)
Lemma reports_forwarded_every_tenth_witness :
  let w := after [CallStart 7 "A" prefix "00aa" 0] in
  let events := imap (λ i p, OnMessage 0 (Worker.delivered (λ _, "failed"%string) p)
                               (1000 * Z.of_nat i))
                  (Worker.reports 25) in
  progressAttempts 7 (sent (fst (run events w))) = [10000; 20000].
Proof.
  intros w events.
  pose (th := {| owner := 7; workerData := ("A"%string, prefix, "00aa"%string);
                 status := Running |}).
  pose (j := {| jobId := "00aa"; userId := 7; pattern := "A"; type := prefix;
                worker := 0; startTime := 0; lastProgress := 0;
                jobDifficulty := calculateDifficulty "A" prefix;
                timeout := 0 |}).
  assert (He : emitting 0 w = Some th) by (vm_compute; reflexivity).
  assert (Hj : activeJobs w !! owner th = Some j) by (vm_compute; reflexivity).
  exact (reports_forwarded_every_tenth w 0 th j 25
           (λ i, 1000 * Z.of_nat i) (λ _, "failed"%string) He Hj eq_refl).
Defined.

(** * The rate limiter *)

Module LimiterFacts.
Import Limiter.

Lemma limit_positive operation limit :
  getLimitForOperation operation = Limit limit → 1 <= limit <= 30.
Proof.
  unfold getLimitForOperation.
  repeat match goal with |- context [if ?b then _ else _] => destruct b end;
    intros H; inversion H; lia.
Qed.

(** In a window that has seen [c] calls and is open until [r]: calls at
    times up to [r] are permitted while the count is below the limit. *)
Lemma checkAll_window u op times st c r limit :
  st !! key u op = Some {| count := c; resetTime := r |} →
  getLimitForOperation op = Limit limit →
  0 <= c <= limit →
  Forall (λ t, t <= r) times →
  map (λ v, (allowed v, remaining v)) (snd (checkAll u op times st))
  = countdown (length times) (Z.to_nat (limit - c)).
Proof.
  intros Hst HL. revert st c Hst.
  induction times as [|now times IH]; intros st c Hst Hc HF; [reflexivity|].
  apply Forall_cons in HF as [Hnow HF].
  cbn [checkAll length]. unfold checkRateLimit. rewrite Hst, HL.
  cbn [resetTime count atLeast limitMinus].
  destruct (r <? now) eqn:E1; [apply Z.ltb_lt in E1; lia|].
  destruct (limit <=? c) eqn:E2.
  - apply Z.leb_le in E2.
    specialize (IH st c Hst Hc HF).
    destruct (checkAll u op times st) as [r2 vs].
    cbn [snd map allowed remaining] in *.
    replace (Z.to_nat (limit - c)) with 0%nat in * by lia.
    cbn [countdown]. by rewrite IH.
  - apply Z.leb_gt in E2.
    match goal with |- context [checkAll u op times ?x] => set (st1 := x) end.
    assert (Hst1 : st1 !! key u op = Some {| count := c + 1; resetTime := r |})
      by apply lookup_insert_eq.
    specialize (IH st1 (c + 1) Hst1 ltac:(lia) HF).
    destruct (checkAll u op times st1) as [r2 vs].
    cbn [snd map allowed remaining] in *.
    replace (Z.to_nat (limit - c)) with (S (Z.to_nat (limit - (c + 1)))) by lia.
    cbn [countdown]. rewrite IH. repeat f_equal. lia.
Qed.

(** The same window under a limit that is no number: every call made up to
    [r] is permitted. *)
Lemma checkAll_unlimited u op times st c r name :
  st !! key u op = Some {| count := c; resetTime := r |} →
  getLimitForOperation op = Inherited name →
  Forall (λ t, t <= r) times →
  map (λ v, (allowed v, remaining v)) (snd (checkAll u op times st))
  = repeat (true, NaN) (length times).
Proof.
  intros Hst HL. revert st c Hst.
  induction times as [|now times IH]; intros st c Hst HF; [reflexivity|].
  apply Forall_cons in HF as [Hnow HF].
  cbn [checkAll length]. unfold checkRateLimit. rewrite Hst, HL.
  cbn [resetTime count atLeast limitMinus].
  destruct (r <? now) eqn:E1; [apply Z.ltb_lt in E1; lia|].
  match goal with |- context [checkAll u op times ?x] => set (st1 := x) end.
  assert (Hst1 : st1 !! key u op = Some {| count := c + 1; resetTime := r |})
    by apply lookup_insert_eq.
  specialize (IH st1 (c + 1) Hst1 HF).
  destruct (checkAll u op times st1) as [r2 vs].
  cbn [snd map allowed remaining repeat] in *. by rewrite IH.
Qed.

(** X19. Of the calls one user makes for one operation within 60 seconds
    of a call that found no open window, that call included, the rate
    limiter permits the first [limit] ones, showing [limit - 1],
    [limit - 2], ..., 0 as the remainder, and refuses every later one with
    remainder 0, where [limit] is the operation's entry in the table, or 5
    for a name that is neither in the table nor inherited by every object.
    Under an inherited name ([toString], [constructor], [__proto__], ...)
    the limit is no number: every call is permitted and the remainder shown
    is NaN. *)
Theorem window_cap (userId : Z) (operation : string) (first : Z)
    (later : list Z) (rateLimiters : gmap string limiter) :
  windowClosed rateLimiters (key userId operation) first →
  Forall (λ t, t <= first + 60000) later →
  map (λ v, (allowed v, remaining v))
    (snd (checkAll userId operation (first :: later) rateLimiters))
  = windowVerdicts (getLimitForOperation operation) (S (length later)).
Proof.
  intros Hclosed HF.
  set (st1 := <[key userId operation
                := {| count := 1; resetTime := first + 60000 |}]> rateLimiters).
  assert (E : checkRateLimit userId operation first rateLimiters
              = (st1, {| allowed := true;
                         remaining := limitMinus (getLimitForOperation operation) 1;
                         waitTime := None |})).
  { unfold checkRateLimit, windowClosed in *.
    destruct (rateLimiters !! key userId operation) as [l|]; [|reflexivity].
    destruct (resetTime l <? first) eqn:E; [reflexivity|].
    apply Z.ltb_ge in E. lia. }
  cbn [checkAll]. rewrite E.
  assert (Hst1 : st1 !! key userId operation
                 = Some {| count := 1; resetTime := first + 60000 |})
    by apply lookup_insert_eq.
  destruct (getLimitForOperation operation) as [limit|name] eqn:HL;
    cbn [windowVerdicts limitMinus].
  - pose proof (limit_positive operation limit HL) as Hpos.
    pose proof (checkAll_window userId operation later st1 1 (first + 60000)
                  limit Hst1 HL ltac:(lia) HF) as H.
    destruct (checkAll userId operation later st1) as [r2 vs].
    cbn [snd map allowed remaining] in *.
    replace (Z.to_nat limit) with (S (Z.to_nat (limit - 1))) by lia.
    cbn [countdown]. rewrite H. repeat f_equal. lia.
  - pose proof (checkAll_unlimited userId operation later st1 1 (first + 60000)
                  name Hst1 HL HF) as H.
    destruct (checkAll userId operation later st1) as [r2 vs].
    cbn [snd map allowed remaining repeat] in *. by rewrite H.
Qed.

(** Five backup requests in one second: three pass. Five calls for the
    operation [toString] in one second: all pass. *)
Lemma window_cap_witness :
  map (λ v, (allowed v, remaining v))
    (snd (checkAll 42 "backup_request" [1000; 1200; 1400; 1600; 1800] ∅))
  = [(true, Int 2); (true, Int 1); (true, Int 0); (false, Int 0); (false, Int 0)]
  ∧ map (λ v, (allowed v, remaining v))
      (snd (checkAll 42 "toString" [1000; 1200; 1400; 1600; 1800] ∅))
    = [(true, NaN); (true, NaN); (true, NaN); (true, NaN); (true, NaN)].
Proof.
  split.
  - apply (window_cap 42 "backup_request" 1000 [1200; 1400; 1600; 1800] ∅).
    + exact I.
    + repeat constructor; lia.
  - apply (window_cap 42 "toString" 1000 [1200; 1400; 1600; 1800] ∅).
    + exact I.
    + repeat constructor; lia.
Defined.

(** ** Keys *)

Lemma to_int_proper z : Z.to_int z ≠ Decimal.Pos Decimal.Nil
                        ∧ Z.to_int z ≠ Decimal.Neg Decimal.Nil.
Proof.
  assert (H : Z.to_int z = Decimal.norm (Z.to_int z)).
  { rewrite <- DecimalZ.to_of. by rewrite DecimalZ.of_to. }
  destruct (Z.to_int z) as [d|d]; split; try discriminate; intros Hd;
    inversion Hd; subst; cbn in H; discriminate.
Qed.

Lemma show_inj u u' :
  NilZero.string_of_int (Z.to_int u) = NilZero.string_of_int (Z.to_int u') →
  u = u'.
Proof.
  intros H. apply (f_equal NilZero.int_of_string) in H.
  destruct (to_int_proper u) as [H1 H2]. destruct (to_int_proper u') as [H3 H4].
  rewrite !NilZero.isi in H by assumption.
  apply DecimalZ.to_int_inj. congruence.
Qed.

Lemma uint_colonFree d : colonFree (NilEmpty.string_of_uint d).
Proof.
  unfold colonFree. induction d; cbn; intros H;
    try (destruct H as [H | H]; [discriminate | tauto]); exact H.
Qed.

Lemma show_colonFree u : colonFree (NilZero.string_of_int (Z.to_int u)).
Proof.
  assert (HU : ∀ d, colonFree (NilZero.string_of_uint d)).
  { intros d. destruct d; try apply (uint_colonFree (_ d)).
    intros [H | []]. discriminate. }
  destruct (Z.to_int u) as [d|d]; cbn.
  - apply HU.
  - intros [H | H]; [discriminate | by apply (HU d)].
Qed.

Lemma colon_split s1 s2 t1 t2 :
  colonFree s1 → colonFree s2 →
  (s1 ++ ":" ++ t1)%string = (s2 ++ ":" ++ t2)%string →
  s1 = s2 ∧ t1 = t2.
Proof.
  unfold colonFree. revert s2. induction s1 as [|a s1 IH]; intros s2 H1 H2 E.
  - destruct s2 as [|b s2]; cbn in E.
    + inversion E. auto.
    + inversion E; subst. exfalso. apply H2. by left.
  - destruct s2 as [|b s2]; cbn in E.
    + inversion E; subst. exfalso. apply H1. by left.
    + inversion E; subst. destruct (IH s2) as [-> ->]; auto.
      * intros H. apply H1. by right.
      * intros H. apply H2. by right.
Qed.

Lemma key_inj u op u' op' : key u op = key u' op' → u = u' ∧ op = op'.
Proof.
  unfold key. intros E.
  apply colon_split in E as [E1 E2]; auto using show_colonFree.
  split; [by apply show_inj | exact E2].
Qed.

(** X20. Rate limits are kept by user and by operation: a check for one
    user and operation leaves the entry of every other user or operation as
    it was, so no one's calls use up another's allowance, nor one
    operation's another's. *)
Theorem limits_are_separate (userId : Z) (operation : string) (now : Z)
    (rateLimiters : gmap string limiter) (userId' : Z) (operation' : string) :
  (userId', operation') ≠ (userId, operation) →
  fst (checkRateLimit userId operation now rateLimiters) !! key userId' operation'
  = rateLimiters !! key userId' operation'.
Proof.
  intros Hne.
  assert (Hk : key userId operation ≠ key userId' operation').
  { intros E. apply key_inj in E as [-> ->]. by apply Hne. }
  unfold checkRateLimit.
  destruct (rateLimiters !! key userId operation) as [l|]; cbn.
  - destruct (resetTime l <? now); cbn; [by rewrite lookup_insert_ne|].
    destruct (atLeast (count l) (getLimitForOperation operation)); cbn;
      [reflexivity | by rewrite lookup_insert_ne].
  - by rewrite lookup_insert_ne.
Qed.

(** User 42 has used up his one wallet creation; user 43 creates one. *)
Lemma limits_are_separate_witness :
  let st := fst (checkRateLimit 42 "wallet_create" 1000 ∅) in
  allowed (snd (checkRateLimit 42 "wallet_create" 2000 st)) = false
  ∧ fst (checkRateLimit 42 "wallet_create" 2000 st) !! key 43 "wallet_create"
    = st !! key 43 "wallet_create".
Proof.
  intros st. split; [reflexivity|].
  apply limits_are_separate. intros H. inversion H.
Defined.

(** ** Refusals *)

Lemma allBelow_spec depth lo P :
  allBelow depth lo P = true →
  ∀ z, lo <= z < lo + 2 ^ Z.of_nat depth → P z = true.
Proof.
  revert lo. induction depth as [|d IH]; intros lo H z Hz.
  - cbn in *. assert (z = lo) by lia. by subst.
  - cbn [allBelow] in H. apply andb_true_iff in H as [H1 H2].
    rewrite Nat2Z.inj_succ, Z.pow_succ_r in Hz by lia.
    destruct (Z_lt_le_dec z (lo + 2 ^ Z.of_nat d)).
    + apply (IH lo H1). lia.
    + apply (IH _ H2). lia.
Qed.

Lemma tellsSeconds_minute k : 0 <= k < 64 → tellsSeconds k = true.
Proof.
  intros Hk. apply (allBelow_spec 6 0 tellsSeconds); [vm_compute; reflexivity|].
  cbn. lia.
Qed.

(** X21. A refusal changes nothing in the limiter, and afterwards a call is
    permitted only strictly after the window's reset time. So when a whole
    number of seconds is left in the window, the refusal tells the caller to
    wait that many seconds, and a retry made exactly that much later is
    refused again. *)
Theorem refusal_wait (userId : Z) (operation : string) (now : Z)
    (rateLimiters : gmap string limiter) (l : limiter) (k : Z) :
  rateLimiters !! key userId operation = Some l →
  atLeast (count l) (getLimitForOperation operation) = true →
  resetTime l - now = 1000 * k → 0 <= k <= 60 →
  let v := snd (checkRateLimit userId operation now rateLimiters) in
  fst (checkRateLimit userId operation now rateLimiters) = rateLimiters
  ∧ allowed v = false
  ∧ remaining v = Int 0
  ∧ (∃ f, waitTime v = Some f ∧ Num.to_Z f = Some k)
  ∧ (∀ later,
       allowed (snd (checkRateLimit userId operation later rateLimiters)) = true
       ↔ resetTime l < later)
  ∧ allowed (snd (checkRateLimit userId operation (now + 1000 * k) rateLimiters))
    = false.
Proof.
  intros Hl Hfull Hd Hk v.
  assert (Hlater : ∀ later,
    allowed (snd (checkRateLimit userId operation later rateLimiters)) = true
    ↔ resetTime l < later).
  { intros later. unfold checkRateLimit. rewrite Hl.
    destruct (resetTime l <? later) eqn:E; cbn.
    - apply Z.ltb_lt in E. tauto.
    - apply Z.ltb_ge in E. rewrite Hfull.
      cbn. split; [discriminate | lia]. }
  assert (E : checkRateLimit userId operation now rateLimiters
    = (rateLimiters,
       {| allowed := false; remaining := Int 0;
          waitTime := Some (Math_ceil (seconds (resetTime l - now))) |})).
  { unfold checkRateLimit. rewrite Hl.
    destruct (resetTime l <? now) eqn:E1; [apply Z.ltb_lt in E1; lia|].
    by rewrite Hfull. }
  subst v. rewrite E. cbn [fst snd allowed remaining waitTime].
  split; [reflexivity|]. split; [reflexivity|]. split; [reflexivity|].
  split; [|split; [exact Hlater|]].
  - eexists. split; [reflexivity|]. rewrite Hd.
    pose proof (tellsSeconds_minute k ltac:(lia)) as HR. unfold tellsSeconds in HR.
    destruct (Num.to_Z (Math_ceil (seconds (1000 * k)))) as [z|]; [|discriminate].
    apply Z.eqb_eq in HR. by subst.
  - destruct (allowed (snd (checkRateLimit userId operation (now + 1000 * k)
                              rateLimiters))) eqn:EA; [|reflexivity].
    apply Hlater in EA. lia.
Qed.

(** The one wallet creation of the minute was used at second 0; a retry at
    second 12 is told to wait 48 seconds, and is refused again at second 60
    sharp. *)
Lemma refusal_wait_witness :
  let st := fst (checkRateLimit 42 "wallet_create" 0 ∅) in
  (∃ f, waitTime (snd (checkRateLimit 42 "wallet_create" 12000 st)) = Some f
        ∧ Num.to_Z f = Some 48)
  ∧ allowed (snd (checkRateLimit 42 "wallet_create" 60000 st)) = false.
Proof.
  intros st.
  assert (Hl : st !! key 42 "wallet_create"
               = Some {| count := 1; resetTime := 60000 |}) by reflexivity.
  assert (Hf : atLeast (count {| count := 1; resetTime := 60000 |})
                 (getLimitForOperation "wallet_create") = true) by reflexivity.
  assert (Hd : resetTime {| count := 1; resetTime := 60000 |} - 12000 = 1000 * 48)
    by reflexivity.
  destruct (refusal_wait 42 "wallet_create" 12000 st _ 48 Hl Hf Hd ltac:(lia))
    as (_ & _ & _ & Hw & _ & Hr).
  split; [exact Hw | exact Hr].
Defined.

(** The invariant of the limiter's entries: a count is 1 at least, and
    under a limit that is a number, the limit at most. *)
Lemma checkRateLimit_counts u op now st :
  (∀ u' op' l, st !! key u' op' = Some l →
     1 <= count l
     ∧ ∀ limit, getLimitForOperation op' = Limit limit → count l <= limit) →
  ∀ u' op' l, fst (checkRateLimit u op now st) !! key u' op' = Some l →
    1 <= count l
    ∧ ∀ limit, getLimitForOperation op' = Limit limit → count l <= limit.
Proof.
  intros Hst u' op' l.
  assert (Hins : ∀ e,
    1 <= count e
    ∧ (∀ limit, getLimitForOperation op = Limit limit → count e <= limit) →
    <[key u op := e]> st !! key u' op' = Some l →
    1 <= count l
    ∧ ∀ limit, getLimitForOperation op' = Limit limit → count l <= limit).
  { intros e He H. destruct (decide (key u op = key u' op')) as [E|E].
    - rewrite E, lookup_insert_eq in H. apply key_inj in E as [_ <-].
      by inversion H; subst.
    - rewrite lookup_insert_ne in H by exact E. by apply (Hst u'). }
  assert (Hone : ∀ r,
    1 <= count {| count := 1; resetTime := r |}
    ∧ ∀ limit, getLimitForOperation op = Limit limit →
        count {| count := 1; resetTime := r |} <= limit).
  { intros r. cbn. split; [lia|]. intros limit HL.
    apply limit_positive in HL. lia. }
  unfold checkRateLimit.
  destruct (st !! key u op) as [e|] eqn:Ee; cbn [fst].
  - destruct (resetTime e <? now); cbn [fst]; [by apply Hins|].
    destruct (atLeast (count e) (getLimitForOperation op)) eqn:E2; cbn [fst].
    + apply Hst.
    + apply Hins. cbn. destruct (Hst _ _ _ Ee) as [H1 _].
      split; [lia|]. intros limit HL. rewrite HL in E2. cbn in E2.
      apply Z.leb_gt in E2. lia.
  - by apply Hins.
Qed.

Lemma checkMany_counts calls st :
  (∀ u op l, st !! key u op = Some l →
     1 <= count l
     ∧ ∀ limit, getLimitForOperation op = Limit limit → count l <= limit) →
  ∀ u op l, checkMany calls st !! key u op = Some l →
    1 <= count l
    ∧ ∀ limit, getLimitForOperation op = Limit limit → count l <= limit.
Proof.
  revert st. induction calls as [|[[u op] now] calls IH]; intros st Hst;
    [exact Hst|].
  cbn [checkMany]. apply IH. by apply checkRateLimit_counts.
Qed.

(** X22. Whatever calls were made before, by whatever users for whatever
    operations and at whatever times, the count kept for a user and an
    operation is 1 at least, and a wait is told exactly in a refusal. Where
    the operation's limit is a number, the count is the limit at most, and
    the remainder a check reports is never negative and stays below the
    limit, 0 in a refusal. Under a name every object inherits ([toString],
    [constructor], [__proto__], ...) the limit is no number: no check is
    refused and the remainder reported is NaN. *)
Theorem remainder_in_range (calls : list (Z * string * Z)) (userId : Z)
    (operation : string) (now : Z) :
  let rateLimiters := checkMany calls ∅ in
  let v := snd (checkRateLimit userId operation now rateLimiters) in
  (∀ l, rateLimiters !! key userId operation = Some l → 1 <= count l)
  ∧ (allowed v = false ↔ is_Some (waitTime v))
  ∧ match getLimitForOperation operation with
    | Limit limit =>
        (∀ l, rateLimiters !! key userId operation = Some l → count l <= limit)
        ∧ (∃ r, remaining v = Int r ∧ 0 <= r < limit)
        ∧ (allowed v = false → remaining v = Int 0)
    | Inherited _ => allowed v = true ∧ remaining v = NaN
    end.
Proof.
  intros st v.
  assert (Hst : ∀ l, st !! key userId operation = Some l →
            1 <= count l
            ∧ ∀ limit, getLimitForOperation operation = Limit limit →
                count l <= limit).
  { intros l. apply (checkMany_counts calls ∅). intros u op l'.
    by rewrite lookup_empty. }
  split; [intros l Hl; by apply Hst|].
  subst v. unfold checkRateLimit.
  destruct (st !! key userId operation) as [e|] eqn:Ee.
  - destruct (Hst e eq_refl) as [H1 Hle].
    destruct (resetTime e <? now).
    + cbn [snd allowed remaining waitTime].
      split; [split; [discriminate | by intros [? ?]]|].
      destruct (getLimitForOperation operation) as [limit|name] eqn:HL;
        cbn [limitMinus]; [|done].
      pose proof (limit_positive _ _ HL).
      split; [intros l Hl; inversion Hl; subst; by apply Hle|].
      split; [exists (limit - 1); split; [done | lia] | discriminate].
    + destruct (getLimitForOperation operation) as [limit|name] eqn:HL;
        cbn [atLeast].
      * specialize (Hle limit eq_refl). pose proof (limit_positive _ _ HL).
        destruct (limit <=? count e) eqn:E2;
          cbn [snd allowed remaining waitTime limitMinus].
        -- split; [split; [eauto | reflexivity]|].
           split; [intros l Hl; by inversion Hl; subst|].
           split; [exists 0; split; [done | lia] | reflexivity].
        -- apply Z.leb_gt in E2.
           split; [split; [discriminate | by intros [? ?]]|].
           split; [intros l Hl; by inversion Hl; subst|].
           split; [exists (limit - (count e + 1)); split; [done | lia]
                  | discriminate].
      * cbn [snd allowed remaining waitTime limitMinus].
        split; [split; [discriminate | by intros [? ?]] | done].
  - cbn [snd allowed remaining waitTime].
    split; [split; [discriminate | by intros [? ?]]|].
    destruct (getLimitForOperation operation) as [limit|name] eqn:HL;
      cbn [limitMinus]; [|done].
    pose proof (limit_positive _ _ HL).
    split; [intros l Hl; discriminate|].
    split; [exists (limit - 1); split; [done | lia] | discriminate].
Qed.

End LimiterFacts.

(** * The list of all jobs *)

Lemma summaries_perm now w :
  getAllActiveJobs now w ≡ₚ summarize now <$> map_to_list (activeJobs w).
Proof.
  unfold getAllActiveJobs. apply fmap_Permutation, sorting.merge_sort_Permutation.
Qed.

(** X23. The list of all jobs has one entry for every job in the table,
    none else and none twice, so three at most: the entry of a requester
    shows the pattern, match type and warning level that the requester's
    status shows, and the elapsed time in milliseconds that the status shows
    formatted. *)
Theorem all_jobs_listed_once (es : list event) (now : Z) :
  let w := after es in
  let all := getAllActiveJobs now w in
  (∀ s, s ∈ all
        ↔ ∃ j, activeJobs w !! summaryUserId s = Some j
               ∧ s = summarize now (summaryUserId s, j))
  ∧ NoDup (summaryUserId <$> all)
  ∧ (length all = size (activeJobs w) ∧ length all <= 3)%nat
  ∧ (∀ s, s ∈ all →
       ∃ v, getStatus (summaryUserId s) now w = Some v
            ∧ statusPattern v = summaryPattern s
            ∧ statusType v = summaryType s
            ∧ statusElapsed v = formatTime (seconds (summaryElapsed s))
            ∧ warningLevel (statusDifficulty v) = summaryDifficulty s).
Proof.
  intros w all.
  assert (Hin : ∀ s, s ∈ all
        ↔ ∃ j, activeJobs w !! summaryUserId s = Some j
               ∧ s = summarize now (summaryUserId s, j)).
  { intros s. unfold all. rewrite summaries_perm, list_elem_of_fmap. split.
    - intros ([u j] & -> & Hj). apply elem_of_map_to_list in Hj.
      exists j. cbn. auto.
    - intros (j & Hj & Hs). exists (summaryUserId s, j).
      split; [exact Hs | by apply elem_of_map_to_list]. }
  split; [exact Hin|]. split; [|split; [split|]].
  - unfold all. rewrite summaries_perm, <- list_fmap_compose.
    apply (NoDup_fst_map_to_list (activeJobs w)).
  - unfold all. rewrite summaries_perm, length_fmap. apply length_map_to_list.
  - unfold all. rewrite summaries_perm, length_fmap, length_map_to_list.
    apply (job_count _ (after_sound es)).
  - intros s Hs. apply Hin in Hs as (j & Hj & Hs).
    unfold getStatus. rewrite Hj. eexists. split; [reflexivity|].
    rewrite Hs. cbn. auto.
Qed.
